(** * ascii_charts: the pie / donut renderer ([pie.py])

    A shallow embedding of [pie(labels, counts, ...)] and the properties
    its specification states about validation, wedge construction,
    orientation, rasterisation, label overlay and assembly.

    Conventions of the embedding.
    - A Python [str] is the list of its code points ([pystr]); glyphs and
      the border are single characters, as the renderer documents them.
    - A Python [int] is a [Z]; [counts] holds ints.
    - Python floats are reached through the interface [PyFloat]: the model
      of the renderer is written once, over any implementation of the
      interface.  Two implementations are given: IEEE binary64 on Rocq's
      primitive floats (what CPython computes with) and exact real
      arithmetic (the idealisation the geometric statements speak of).
    - Integers that CPython cannot convert to a float ([OverflowError]
      beyond 2^1024), a zero [y_scale], [samples = -1] and a negative
      [radius] raise in Python; they lie outside the documented parameter
      domains and outside this model. *)

From Stdlib Require Import Ascii String DecimalString.
From Stdlib Require Import ZArith NArith Bool Lia List.
From Stdlib Require Import Reals Lra.
From Stdlib Require Import Floats.
From Stdlib Require Import Permutation.
Import ListNotations.

Local Open Scope Z_scope.

(** ** Python strings *)

Module PyStr.

Definition pychar := N.
Definition pystr := list pychar.

Definition space : pychar := 32%N.
Definition newline : pychar := 10%N.

(** Code points of a UTF-8 encoded literal. *)
Fixpoint utf8_decode (bs : list N) : pystr :=
  match bs with
  | [] => []
  | b :: rest =>
      if (b <? 128)%N then b :: utf8_decode rest
      else if (b <? 224)%N then
        match rest with
        | c1 :: r => ((b - 192) * 64 + (c1 - 128))%N :: utf8_decode r
        | _ => []
        end
      else if (b <? 240)%N then
        match rest with
        | c1 :: c2 :: r =>
            ((b - 224) * 4096 + (c1 - 128) * 64 + (c2 - 128))%N :: utf8_decode r
        | _ => []
        end
      else
        match rest with
        | c1 :: c2 :: c3 :: r =>
            ((b - 240) * 262144 + (c1 - 128) * 4096 + (c2 - 128) * 64 + (c3 - 128))%N
              :: utf8_decode r
        | _ => []
        end
  end.

Definition py (s : string) : pystr :=
  utf8_decode (map N_of_ascii (list_ascii_of_string s)).

(** [sep.join(parts)] *)
Fixpoint join (sep : pystr) (parts : list pystr) : pystr :=
  match parts with
  | [] => []
  | [p] => p
  | p :: rest => p ++ sep ++ join sep rest
  end.

(** [str(n)] for an int. *)
Definition str_of_int (n : Z) : pystr :=
  py (NilZero.string_of_int (Z.to_int n)).

(** The text of [n] tenths: integer part, point, one decimal. *)
Definition tenths (neg : bool) (n : Z) : pystr :=
  (if neg then py "-" else []) ++ str_of_int (n / 10) ++ py "."
    ++ str_of_int (n mod 10).

(** [s.center(width, fill)], CPython's [unicode_center]. *)
Definition center (s : pystr) (width : Z) (fill : pychar) : pystr :=
  let n := Z.of_nat (length s) in
  if width <=? n then s
  else
    let marg := width - n in
    let left := marg / 2 + Z.land (Z.land marg width) 1 in
    repeat fill (Z.to_nat left) ++ s ++ repeat fill (Z.to_nat (marg - left)).

(** [s[:n]] *)
Definition take {A} (n : Z) (l : list A) : list A :=
  if 0 <=? n then firstn (Z.to_nat n) l
  else firstn (length l - Z.to_nat (- n)) l.

(** [range(lo, hi)] *)
Definition range (lo hi : Z) : list Z :=
  map (fun k => lo + Z.of_nat k) (seq 0 (Z.to_nat (hi - lo))).

End PyStr.
Import PyStr.

(** ** The float interface *)

Class PyFloat (F : Type) : Type := {
  of_int : Z -> F;            (* float(n), and the int operand of a mixed operation *)
  fadd : F -> F -> F;
  fsub : F -> F -> F;
  fmul : F -> F -> F;
  fdiv : F -> F -> F;
  fmod : F -> F -> F;         (* Python's [%] on floats *)
  fneg : F -> F;
  fabs : F -> F;
  feq : F -> F -> bool;
  flt : F -> F -> bool;
  fle : F -> F -> bool;
  pi : F;                     (* math.pi *)
  hypot : F -> F -> F;        (* math.hypot *)
  atan2 : F -> F -> F;        (* math.atan2 *)
  fmt1 : F -> pystr           (* format(x, ".1f") *)
}.

Declare Scope pyfloat_scope.
Delimit Scope pyfloat_scope with pf.
Infix "[+]" := fadd (at level 50, left associativity) : pyfloat_scope.
Infix "[-]" := fsub (at level 50, left associativity) : pyfloat_scope.
Infix "[*]" := fmul (at level 40, left associativity) : pyfloat_scope.
Infix "[/]" := fdiv (at level 40, left associativity) : pyfloat_scope.
Infix "[%]" := fmod (at level 40, left associativity) : pyfloat_scope.
Infix "[<]" := flt (at level 70, no associativity) : pyfloat_scope.
Infix "[<=]" := fle (at level 70, no associativity) : pyfloat_scope.
Infix "[==]" := feq (at level 70, no associativity) : pyfloat_scope.

(** Equal floats compare [<=]: the one fact about comparisons the wedge
    builder relies on (a total that is not [<= 0] is not [0.0] either). *)
Class PyFloatOrder (F : Type) {PF : PyFloat F} : Prop := {
  feq_fle : forall a b : F, feq a b = true -> fle a b = true
}.

(** ** The renderer *)

Module Pie.

Inductive LabelMode := Percent | Value | Both | OtherMode.
Inductive Align := AlignLeft | AlignRight | AlignCenter.

Record Options (F : Type) : Type := mkOptions {
  radius : Z;
  hole : F;
  start_at_12 : bool;
  clockwise : bool;
  samples : Z;
  y_scale : F;
  border : option pychar;      (* [None] for [None] or [""] *)
  border_softness : F;
  chars : list pychar;         (* [[]] for [None] or an empty list *)
  show_legend : bool;
  label_mode : LabelMode;
  label_max : Z;
  title : pystr                (* [[]] for [None] or [""] *)
}.
Arguments mkOptions {F}.
Arguments radius {F}. Arguments hole {F}. Arguments start_at_12 {F}.
Arguments clockwise {F}. Arguments samples {F}. Arguments y_scale {F}.
Arguments border {F}. Arguments border_softness {F}. Arguments chars {F}.
Arguments show_legend {F}. Arguments label_mode {F}. Arguments label_max {F}.
Arguments title {F}.

(** A wedge, [[lab, a0, a1, ch, frac, val]] in the source. *)
Record Wedge (F : Type) : Type := mkWedge {
  w_lab : pystr;
  w_a0 : F;
  w_a1 : F;
  w_ch : pychar;
  w_frac : F;
  w_val : Z
}.
Arguments mkWedge {F}. Arguments w_lab {F}. Arguments w_a0 {F}.
Arguments w_a1 {F}. Arguments w_ch {F}. Arguments w_frac {F}.
Arguments w_val {F}.

Definition invalid_input : pystr :=
  py "Invalid input: labels and counts must be same-length non-empty lists.".
Definition no_data : pystr := py "No data.".

Definition default_chars : list pychar := py "█░▒▓▩▦▧▨▤▥".
Definition default_border : pychar := 183%N.   (* "·" *)

Section Renderer.

Context {F : Type} {PF : PyFloat F}.
Local Open Scope pyfloat_scope.

(** A decimal literal [n/d] of the source ([2.4], [0.99], [1e-6], ...): the
    correctly rounded quotient of two exactly representable integers. *)
Definition lit (n d : Z) : F := of_int n [/] of_int d.

Definition fzero : F := of_int 0.
Definition two_pi : F := of_int 2 [*] pi.

(** Python's two-argument [min] and [max]. *)
Definition py_min (a b : F) : F := if b [<] a then b else a.
Definition py_max (a b : F) : F := if a [<] b then b else a.

(** The default values of the keyword parameters (source lines 3-15). *)
Definition defaults : Options F :=
  mkOptions 12 fzero true true 4 (lit 24 10) (Some default_border) (lit 45 100)
            [] true Percent 4 [].

Definition with_radius (r : Z) (o : Options F) : Options F :=
  mkOptions r (hole o) (start_at_12 o) (clockwise o) (samples o) (y_scale o)
            (border o) (border_softness o) (chars o) (show_legend o)
            (label_mode o) (label_max o) (title o).

(** *** Wedges (source lines 77-88) *)

Definition glyphs_of (cs : list pychar) : list pychar :=
  match cs with [] => default_chars | _ => cs end.

Definition glyph_at (glyphs : list pychar) (i : nat) : pychar :=
  nth (i mod length glyphs) glyphs space.

Fixpoint build_wedges (glyphs : list pychar) (total : F) (i : nat) (cum : F)
    (items : list (pystr * Z)) : list (Wedge F) :=
  match items with
  | [] => []
  | (lab, val) :: rest =>
      let frac := if total [==] fzero then fzero else of_int val [/] total in
      let ang := two_pi [*] frac in
      mkWedge lab cum (cum [+] ang) (glyph_at glyphs i) frac val
        :: build_wedges glyphs total (S i) (cum [+] ang) rest
  end.

Definition total_of (counts : list Z) : F :=
  of_int (fold_left Z.add counts 0).

Definition wedges_of (o : Options F) (labels : list pystr) (counts : list Z)
    : list (Wedge F) :=
  build_wedges (glyphs_of (chars o)) (total_of counts) 0 fzero
    (combine labels counts).

(** *** Orientation (source lines 93-100) *)

Definition orient (o : Options F) (a : F) : F :=
  let a := if a [<] fzero then a [+] two_pi else a in
  let a := if start_at_12 o then (a [-] pi [/] of_int 2) [%] two_pi else a in
  let a := if clockwise o then fneg a [%] two_pi else a in
  a.

(** *** Sampling set-up (source lines 103-108) *)

Definition inner (o : Options F) : F :=
  py_max fzero (py_min (lit 99 100) (hole o)) [*] of_int (radius o).

Definition step (o : Options F) : F := of_int 1 [/] of_int (samples o + 1).

Definition offsets (o : Options F) : list F :=
  map (fun k => of_int (k + 1) [*] step o [-] lit 1 2) (range 0 (samples o)).

(** *** Wedge lookup (source lines 111-117) *)

Definition wedge_matches (w : Wedge F) (last : bool) (ang : F) : bool :=
  ((w_a0 w [<=] ang) && (ang [<] w_a1 w))
  || (last && ((w_a0 w [<=] ang) || (ang [<] w_a1 w [%] two_pi))).

Fixpoint wedge_char (ws : list (Wedge F)) (ang : F) : pychar :=
  match ws with
  | [] => space
  | w :: rest =>
      let last := match rest with [] => true | _ => false end in
      if wedge_matches w last ang then w_ch w else wedge_char rest ang
  end.

(** *** Rasterisation of one cell (source lines 124-158) *)

(** The three counters of a cell; [votes] is the insertion-ordered dict. *)
Record Tally : Type := mkTally {
  votes : list (pychar * Z);
  border_vote : Z;
  inside : Z
}.

Definition empty_tally : Tally := mkTally [] 0 0.

(** [votes[ch] = votes.get(ch, 0) + 1] *)
Fixpoint vote (ch : pychar) (vs : list (pychar * Z)) : list (pychar * Z) :=
  match vs with
  | [] => [(ch, 1)]
  | (c, n) :: rest =>
      if (c =? ch)%N then (c, n + 1) :: rest else (c, n) :: vote ch rest
  end.

Definition sample_x (i : Z) (dx : F) : F := of_int i [+] dx.
Definition sample_y (o : Options F) (j : Z) (dy : F) : F :=
  (of_int j [+] dy) [/] y_scale o.
Definition sample_r (o : Options F) (i j : Z) (dy dx : F) : F :=
  hypot (sample_x i dx) (sample_y o j dy).

(** The sample is skipped by [continue]. *)
Definition discarded (o : Options F) (r : F) : bool :=
  (of_int (radius o) [+] lit 1 1000000 [<] r)
  || (r [<] inner o [-] lit 1 1000000).

Definition near_border (o : Options F) (r : F) : bool :=
  match border o with
  | None => false
  | Some _ =>
      (fabs (r [-] of_int (radius o)) [<] border_softness o)
      || ((fzero [<] inner o) && (fabs (r [-] inner o) [<] border_softness o))
  end.

Definition sample_glyph (o : Options F) (ws : list (Wedge F)) (i j : Z)
    (dy dx : F) : pychar :=
  wedge_char ws (orient o (atan2 (sample_y o j dy) (sample_x i dx))).

Definition sample_step (o : Options F) (ws : list (Wedge F)) (i j : Z)
    (t : Tally) (d : F * F) : Tally :=
  let '(dy, dx) := d in
  let r := sample_r o i j dy dx in
  if discarded o r then t
  else
    mkTally (vote (sample_glyph o ws i j dy dx) (votes t))
            (if near_border o r then border_vote t + 1 else border_vote t)
            (inside t + 1).

(** Scan order: outer loop over [dy], inner loop over [dx]. *)
Definition scan (o : Options F) : list (F * F) :=
  list_prod (offsets o) (offsets o).

Definition tally_cell (o : Options F) (ws : list (Wedge F)) (i j : Z) : Tally :=
  fold_left (sample_step o ws i j) (scan o) empty_tally.

(** [max(votes.items(), key=lambda kv: kv[1])]: the first maximal item. *)
Fixpoint max_item (best : pychar * Z) (vs : list (pychar * Z)) : pychar * Z :=
  match vs with
  | [] => best
  | kv :: rest => max_item (if snd best <? snd kv then kv else best) rest
  end.

(** On an empty dict Python's [max] raises; [resolve] never asks for it
    (see [votes_nonempty]). *)
Definition majority (vs : list (pychar * Z)) : pychar :=
  match vs with
  | [] => space
  | kv :: rest => fst (max_item kv rest)
  end.

Definition resolve (o : Options F) (t : Tally) : pychar :=
  if inside t =? 0 then space
  else
    let ch := majority (votes t) in
    match border o with
    | Some b => if inside t / 3 <? border_vote t then b else ch
    | None => ch
    end.

Definition cell (o : Options F) (ws : list (Wedge F)) (i j : Z) : pychar :=
  resolve o (tally_cell o ws i j).

Definition raster_row (o : Options F) (ws : list (Wedge F)) (j : Z) : pystr :=
  map (fun i => cell o ws i j) (range (- radius o) (radius o + 1)).

Definition rasterize (o : Options F) (ws : list (Wedge F)) : list pystr :=
  map (raster_row o ws) (range (- radius o) (radius o + 1)).

(** *** Label formatting (source lines 162-166) *)

Definition pct (frac : F) : pystr := fmt1 (frac [*] of_int 100).

Definition fmt (mode : LabelMode) (lbl : pystr) (frac : F) (val : Z) : pystr :=
  match mode with
  | Value => lbl ++ py " " ++ str_of_int val
  | Both => lbl ++ py " " ++ str_of_int val ++ py " (" ++ pct frac ++ py "%)"
  | Percent | OtherMode => lbl ++ py " " ++ pct frac ++ py "%"
  end.

(** *** Label overlay (source lines 170-225) *)

(** [sorted(wedges, key=lambda w: w[4], reverse=True)]: stable, descending. *)
Fixpoint insert_desc (w : Wedge F) (l : list (Wedge F)) : list (Wedge F) :=
  match l with
  | [] => [w]
  | y :: rest =>
      if w_frac y [<] w_frac w then w :: l else y :: insert_desc w rest
  end.

Definition sorted_desc (ws : list (Wedge F)) : list (Wedge F) :=
  fold_left (fun acc w => insert_desc w acc) ws [].

(** Row and alignment of the label of rank [k] in a grid of [h] rows. *)
Definition target (h k : Z) : Z * Align :=
  let mid := h / 2 in
  let offset := (k / 2 + 1) * (if 2 <=? k then 2 else 1) in
  let row_idx := if k mod 2 =? 0 then mid - offset else mid + offset in
  let align := if k mod 2 =? 0 then AlignLeft else AlignRight in
  (Z.max 0 (Z.min (h - 1) row_idx), align).

(** Index of the first character that is not a space. *)
Fixpoint first_nonblank (row : pystr) (k : nat) : option nat :=
  match row with
  | [] => None
  | c :: rest => if (c =? space)%N then first_nonblank rest (S k) else Some k
  end.

(** [row[n] = c] for an index within the row. *)
Fixpoint set_at {A} (n : nat) (c : A) (l : list A) : list A :=
  match l, n with
  | [], _ => []
  | _ :: rest, O => c :: rest
  | x :: rest, S m => x :: set_at m c rest
  end.

(** The loop [for idx, ch in enumerate(text): ...] that writes [text] from
    column [col] on, within the row only. *)
Fixpoint overwrite (row : pystr) (col : Z) (text : pystr) : pystr :=
  match text with
  | [] => row
  | ch :: rest =>
      overwrite
        (if (0 <=? col) && (col <? Z.of_nat (length row))
         then set_at (Z.to_nat col) ch row else row)
        (col + 1) rest
  end.

Definition last_nonblank (row : pystr) : Z :=
  Z.of_nat (length row) - 1
  - Z.of_nat (match first_nonblank (rev row) 0 with Some k => k | None => O end).

(** What [place] does to the characters of its row. *)
Definition place_row (row text : pystr) (align : Align) : pystr :=
  match first_nonblank row 0 with
  | None => row
  | Some f =>
      let first := Z.of_nat f in
      let last := last_nonblank row in
      if last <=? first then row
      else
        let left_limit := first + 1 in
        let right_limit := last - 1 in
        let text := space :: text ++ [space] in
        let avail := right_limit - left_limit + 1 in
        let text :=
          if avail <? Z.of_nat (length text) then take (Z.max 0 avail) text
          else text in
        let start :=
          match align with
          | AlignLeft => left_limit
          | AlignRight => right_limit - Z.of_nat (length text) + 1
          | AlignCenter => left_limit + (avail - Z.of_nat (length text)) / 2
          end in
        overwrite row start text
  end.

(** [place(row_idx, text, align)] on the list [lines].  Without any row
    ([h = 0], a negative radius) Python raises [IndexError]. *)
Definition place (lines : list pystr) (row_idx : Z) (text : pystr)
    (align : Align) : list pystr :=
  match nth_error lines (Z.to_nat row_idx) with
  | None => lines
  | Some row => set_at (Z.to_nat row_idx) (place_row row text align) lines
  end.

Definition place_one (o : Options F) (lines : list pystr)
    (wt : Wedge F * (Z * Align)) : list pystr :=
  let '(w, (row_idx, align)) := wt in
  place lines row_idx (fmt (label_mode o) (w_lab w) (w_frac w) (w_val w)) align.

Definition place_labels (o : Options F) (ws : list (Wedge F))
    (lines : list pystr) : list pystr :=
  if (label_max o =? 0) || (Nat.eqb (length ws) 0) then lines
  else
    let ordered := take (label_max o) (sorted_desc ws) in
    let h := Z.of_nat (length lines) in
    let targets := map (target h) (range 0 (Z.of_nat (length ordered))) in
    fold_left (place_one o) (combine ordered targets) lines.

(** *** Legend, title and assembly (source lines 228-243) *)

Definition legend_part (w : Wedge F) : pystr :=
  [w_ch w] ++ py " " ++ w_lab w ++ py " " ++ str_of_int (w_val w)
    ++ py " (" ++ pct (w_frac w) ++ py "%)".

Definition legend_lines (o : Options F) (ws : list (Wedge F)) : list pystr :=
  if show_legend o then [join (py " | ") (map legend_part ws)] else [].

Definition title_lines (o : Options F) : list pystr :=
  match title o with
  | [] => []
  | t => [center t (radius o * 2 + 20) 61%N; []]
  end.

Definition is_empty {A} (l : list A) : bool :=
  match l with [] => true | _ => false end.

(** The chart of a validated input. *)
Definition chart (o : Options F) (labels : list pystr) (counts : list Z)
    : pystr :=
  let ws := wedges_of o labels counts in
  let lines := place_labels o ws (rasterize o ws) in
  join [newline] (title_lines o ++ lines ++ legend_lines o ws).

Definition pie (o : Options F) (labels : list pystr) (counts : list Z)
    : pystr :=
  if is_empty labels || is_empty counts
     || negb (Nat.eqb (length labels) (length counts))
  then invalid_input
  else if total_of counts [<=] fzero then no_data
  else chart o labels counts.

End Renderer.

End Pie.

(** ** IEEE binary64, as CPython computes *)

Module Binary64.

Definition of_Z (z : Z) : float := SF2Prim (binary_normalize prec emax z 0 false).

(** C's [fmod]: the exact remainder, with the sign of [x]. *)
Definition c_fmod (x y : float) : float :=
  match Prim2SF x, Prim2SF y with
  | S754_nan, _ | _, S754_nan => nan
  | S754_infinity _, _ => nan
  | _, S754_zero _ => nan
  | _, S754_infinity _ => x
  | S754_zero _, _ => x
  | S754_finite sx mx ex, S754_finite _ my ey =>
      let e := Z.min ex ey in
      let r := (Zpos mx * 2 ^ (ex - e)) mod (Zpos my * 2 ^ (ey - e)) in
      if r =? 0 then (if sx then neg_zero else zero)
      else SF2Prim (binary_normalize prec emax (if sx then - r else r) e false)
  end.

(** CPython's [float_rem] for a divisor that is not zero. *)
Definition py_mod (x y : float) : float :=
  let m := c_fmod x y in
  if PrimFloat.eqb m zero then (if PrimFloat.ltb y zero then neg_zero else zero)
  else if xorb (PrimFloat.ltb y zero) (PrimFloat.ltb m zero)
       then PrimFloat.add m y else m.

Definition math_pi : float := 0x1.921fb54442d18p+1%float.

(** [math.hypot], up to the rounding of the last place. *)
Definition math_hypot (x y : float) : float :=
  PrimFloat.sqrt (PrimFloat.add (PrimFloat.mul x x) (PrimFloat.mul y y)).

(** *** [math.atan2]

    Computed in fixed point with 128 fractional bits and rounded once to
    binary64, which is the value the C library returns up to the rounding
    of the last place. *)

Definition fx_bits : Z := 128.
Definition fx_pi : Z := 1069028584064966747859680373161870783301.

(** [atan (k / 4)] for [k] from 0 to 4. *)
Definition fx_atan_quarter (k : Z) : Z :=
  match k with
  | 0 => 0
  | 1 => 83361919333936566143630937862326224377
  | 2 => 157771105808028117754327952606648682114
  | 3 => 218972080416427138421184281367638027423
  | _ => fx_pi / 4
  end.

(** Partial sums of [u - u^3/3 + u^5/5 - ...] from the term [pw = u^(2k+1)]. *)
Fixpoint atan_terms (fuel : nat) (u2 pw : Z) (k : Z) (acc : Z) : Z :=
  match fuel with
  | O => acc
  | S fuel' =>
      if pw =? 0 then acc
      else
        let t := pw / (2 * k + 1) in
        atan_terms fuel' u2 (Z.shiftr (pw * u2) fx_bits) (k + 1)
          (if Z.even k then acc + t else acc - t)
  end.

(** [atan u] for a fixed-point [u] between [-1/8] and [1/8]. *)
Definition fx_atan_small (u : Z) : Z :=
  let a := Z.abs u in
  let v := atan_terms 24 (Z.shiftr (a * a) fx_bits) a 0 0 in
  if u <? 0 then - v else v.

(** [atan (p / q)] for integers [0 <= p <= q], [0 < q]: the nearest
    quarter [k / 4] is split off,
    [atan (p/q) = atan (k/4) + atan ((4p - kq) / (4q + kp))]. *)
Definition fx_atan_le1 (p q : Z) : Z :=
  let k := (8 * p + q) / (2 * q) in
  fx_atan_quarter k
  + fx_atan_small (Z.shiftl (4 * p - k * q) fx_bits / (4 * q + k * p)).

(** [atan (b / a)] for integers [0 < a], [0 < b]. *)
Definition fx_atan_ratio (b a : Z) : Z :=
  if a <? b then fx_pi / 2 - fx_atan_le1 a b else fx_atan_le1 b a.

Definition of_fx (neg : bool) (v : Z) : float :=
  let r := SF2Prim (binary_normalize prec emax v (- fx_bits) false) in
  if neg then PrimFloat.opp r else r.

Definition math_atan2 (y x : float) : float :=
  match Prim2SF y, Prim2SF x with
  | S754_nan, _ | _, S754_nan => nan
  | S754_zero sy, S754_zero sx | S754_zero sy, S754_finite sx _ _
  | S754_zero sy, S754_infinity sx
  | S754_finite sy _ _, S754_infinity sx =>
      if sx then of_fx sy fx_pi else if sy then neg_zero else zero
  | S754_finite sy _ _, S754_zero _ | S754_infinity sy, S754_zero _
  | S754_infinity sy, S754_finite _ _ _ => of_fx sy (fx_pi / 2)
  | S754_infinity sy, S754_infinity sx =>
      of_fx sy (if sx then 3 * (fx_pi / 4) else fx_pi / 4)
  | S754_finite sy my ey, S754_finite sx mx ex =>
      let e := Z.min ex ey in
      let a := Zpos mx * 2 ^ (ex - e) in
      let b := Zpos my * 2 ^ (ey - e) in
      if (b * 2 ^ 50 <? a) && negb sx
      then PrimFloat.div y x
      else
        let t := fx_atan_ratio b a in
        of_fx sy (if sx then fx_pi - t else t)
  end.

(** *** [format(x, ".1f")]: the decimal nearest to the exact value, ties to even *)

Definition round_half_even (num den : Z) : Z :=
  let q := num / den in
  let r := num mod den in
  if 2 * r <? den then q
  else if den <? 2 * r then q + 1
  else if Z.even q then q else q + 1.

Definition format_1f (x : float) : pystr :=
  match Prim2SF x with
  | S754_nan => py "nan"
  | S754_infinity s => if s then py "-inf" else py "inf"
  | S754_zero s => tenths s 0
  | S754_finite s m e =>
      tenths s (if 0 <=? e then Zpos m * 2 ^ e * 10
                else round_half_even (Zpos m * 10) (2 ^ (- e)))
  end.

#[global] Instance binary64 : PyFloat float := {
  of_int := of_Z;
  fadd := PrimFloat.add;
  fsub := PrimFloat.sub;
  fmul := PrimFloat.mul;
  fdiv := PrimFloat.div;
  fmod := py_mod;
  fneg := PrimFloat.opp;
  fabs := PrimFloat.abs;
  feq := PrimFloat.eqb;
  flt := PrimFloat.ltb;
  fle := PrimFloat.leb;
  pi := math_pi;
  hypot := math_hypot;
  atan2 := math_atan2;
  fmt1 := format_1f
}.

End Binary64.

(** ** Exact real arithmetic *)

Module Exact.

Local Open Scope R_scope.

Definition Rltb (a b : R) : bool := if Rlt_dec a b then true else false.
Definition Rleb (a b : R) : bool := if Rle_dec a b then true else false.
Definition Reqb (a b : R) : bool := if Req_dec_T a b then true else false.

(** [a % m] on reals: [a - floor (a / m) * m]. *)
Definition Rmod (a m : R) : R := a - IZR (Int_part (a / m)) * m.

Definition Rhypot (x y : R) : R := R_sqrt.sqrt (x * x + y * y).

Definition Ratan2 (y x : R) : R :=
  if Rlt_dec 0 x then atan (y / x)
  else if Rlt_dec x 0 then
    if Rle_dec 0 y then atan (y / x) + PI else atan (y / x) - PI
  else if Rlt_dec 0 y then PI / 2
  else if Rlt_dec y 0 then - (PI / 2)
  else 0.

Definition Rround_half_even (r : R) : Z :=
  let q := Int_part r in
  let d := r - IZR q in
  if Rlt_dec d (1 / 2) then q
  else if Rlt_dec (1 / 2) d then (q + 1)%Z
  else if Z.even q then q else (q + 1)%Z.

Definition Rformat_1f (x : R) : pystr :=
  tenths (Rltb x 0) (Rround_half_even (Rabs x * 10)).

#[global] Instance exact : PyFloat R := {
  of_int := IZR;
  fadd := Rplus;
  fsub := Rminus;
  fmul := Rmult;
  fdiv := Rdiv;
  fmod := Rmod;
  fneg := Ropp;
  fabs := Rabs;
  feq := Reqb;
  flt := Rltb;
  fle := Rleb;
  pi := PI;
  hypot := Rhypot;
  atan2 := Ratan2;
  fmt1 := Rformat_1f
}.

End Exact.

Import Pie.


(** ** Statement-level definitions *)

(** The input passes both validations of [pie]. *)
Definition validated {F} {PF : PyFloat F} (labels : list pystr)
    (counts : list Z) : Prop :=
  labels <> [] /\ counts <> [] /\ length labels = length counts
  /\ fle (total_of counts) fzero = false.

(** Column [c] lies outside the span of [row]: everything up to [c], or
    everything from [c] on, is blank. *)
Definition blank_upto (row : pystr) (c : nat) : Prop :=
  forall k ch, (k <= c)%nat -> nth_error row k = Some ch -> ch = space.
Definition blank_from (row : pystr) (c : nat) : Prop :=
  forall k ch, (c <= k)%nat -> nth_error row k = Some ch -> ch = space.
Definition outside_span (row : pystr) (c : nat) : Prop :=
  blank_upto row c \/ blank_from row c.

(** The samples of cell [(i, j)] that fall inside the disk or ring, in scan
    order, the glyph each of them votes for, and the border votes. *)
Definition inside_samples {F} {PF : PyFloat F} (o : Options F) (i j : Z)
    : list (F * F) :=
  filter (fun d => negb (discarded o (sample_r o i j (fst d) (snd d)))) (scan o).

Definition glyphs_voted {F} {PF : PyFloat F} (o : Options F)
    (ws : list (Wedge F)) (i j : Z) : list pychar :=
  map (fun d => sample_glyph o ws i j (fst d) (snd d)) (inside_samples o i j).

Definition border_votes {F} {PF : PyFloat F} (o : Options F) (i j : Z) : Z :=
  Z.of_nat (length (filter (fun d => near_border o (sample_r o i j (fst d) (snd d)))
                           (inside_samples o i j))).

(** The keys of the vote dictionary, and the dictionary after a sequence
    of votes. *)
Definition keys (vs : list (pychar * Z)) : list pychar := map fst vs.

Definition tally_votes (gs : list pychar) (vs : list (pychar * Z))
    : list (pychar * Z) :=
  fold_left (fun acc g => vote g acc) gs vs.

Definition votes_for (g : pychar) (gs : list pychar) : Z :=
  Z.of_nat (count_occ N.eq_dec gs g).

(** [g] has the most votes in [gs], and every glyph met before the first
    [g] has strictly fewer: among the glyphs with the most votes, [g] is the
    one met first. *)
Definition first_with_most_votes (g : pychar) (gs : list pychar) : Prop :=
  exists pre post,
    gs = pre ++ g :: post /\ ~ In g pre
    /\ (forall g', votes_for g' gs <= votes_for g gs)
    /\ (forall g', In g' pre -> votes_for g' gs < votes_for g gs).

(** The sentence of the specification on the donut hole, at one cell:
    with [hole > 0], a cell all of whose samples have [r < inner] is blank. *)
Definition below_inner {F} {PF : PyFloat F} (o : Options F) (i j : Z) : bool :=
  forallb (fun d => flt (sample_r o i j (fst d) (snd d)) (inner o)) (scan o).

Definition blank_below_inner {F} {PF : PyFloat F} (o : Options F)
    (ws : list (Wedge F)) (i j : Z) : Prop :=
  flt fzero (hole o) = true -> below_inner o i j = true -> cell o ws i j = space.

(** The test the renderer applies: [r < inner - 1e-6]. *)
Definition below_inner_eps {F} {PF : PyFloat F} (o : Options F) (i j : Z) : bool :=
  forallb (fun d => flt (sample_r o i j (fst d) (snd d))
                        (fsub (inner o) (lit 1 1000000))) (scan o).

(** *** Wedges *)

(** Each wedge starts where the one before ends, the first one at [start]. *)
Fixpoint chained {F} (start : F) (ws : list (Wedge F)) : Prop :=
  match ws with
  | [] => True
  | w :: rest => w_a0 w = start /\ chained (w_a1 w) rest
  end.


(** [0 <= a < 2 pi] *)
Definition in_turn {F} {PF : PyFloat F} (a : F) : Prop :=
  fle fzero a = true /\ flt a two_pi = true.





(** *** Wedge lookup *)

(** Some wedge matches [x]: [wedge_char] does not fall through. *)
Fixpoint matches_any {F} {PF : PyFloat F} (ws : list (Wedge F)) (x : F) : bool :=
  match ws with
  | [] => false
  | w :: rest => wedge_matches w (is_empty rest) x || matches_any rest x
  end.

(** [x] compares with every wedge end: [x < a1] or [a1 <= x]. *)
Definition comparable {F} {PF : PyFloat F} (ws : list (Wedge F)) (x : F) : bool :=
  forallb (fun w => flt x (w_a1 w) || fle (w_a1 w) x) ws.

(** A binary64 number that is not NaN and not below zero. *)
Definition nonneg_number (s : spec_float) : bool :=
  match s with
  | S754_nan => false
  | S754_zero _ => true
  | S754_infinity sx | S754_finite sx _ _ => negb sx
  end.


(** *** Orientation *)

(** [orient] is a bijection of [0, 2 pi) onto itself. *)
Definition orient_bijective {F} {PF : PyFloat F} (o : Options F) : Prop :=
  (forall a, in_turn a -> in_turn (orient o a))
  /\ (forall a b, in_turn a -> in_turn b -> orient o a = orient o b -> a = b)
  /\ (forall y, in_turn y -> exists a, in_turn a /\ orient o a = y).

(** The same, on the reals. *)
Definition turn : R := (2 * PI)%R.

Definition Rbij (f : R -> R) : Prop :=
  (forall a, 0 <= a < turn -> 0 <= f a < turn)%R
  /\ (forall a b, 0 <= a < turn -> 0 <= b < turn -> f a = f b -> a = b)%R
  /\ (forall y, 0 <= y < turn -> exists a, 0 <= a < turn /\ f a = y)%R.

(** [sum(counts)] *)
Definition zsum (l : list Z) : Z := fold_left Z.add l 0.

(** *** A single wedge *)


(** The chart of [labels=["A"], counts=[10], radius=4], other options at
    their defaults, in binary64. *)
Definition scenario_options : Options float := with_radius 4 defaults.


Definition scenario_raster : list pystr :=
  [py " ███████ ";
   py "·███████·";
   py "·███████·";
   py "·███████·";
   py "·███████·";
   py "·███████·";
   py "·███████·";
   py "·███████·";
   py " ███████ "].

(** *** Validation *)


(** *** Further properties: counters, labels, ranking, hole, sampling *)

(** The number of votes in the dictionary. *)
Definition vote_total (vs : list (pychar * Z)) : Z :=
  fold_right Z.add 0 (map snd vs).

(** A grid of [n] rows of [n] blanks. *)
Definition blank_grid (n : nat) : list pystr := repeat (repeat space n) n.

(** Every sample of cell [(i, j)] lies beyond the outer radius:
    [r > radius + 1e-6]. *)
Definition beyond_radius {F} {PF : PyFloat F} (o : Options F) (i j : Z) : bool :=
  forallb (fun d => flt (fadd (of_int (radius o)) (lit 1 1000000))
                        (sample_r o i j (fst d) (snd d))) (scan o).

(** The offset of rank [k] from the middle row. *)
Definition rank_offset (k : Z) : Z := (k / 2 + 1) * (if 2 <=? k then 2 else 1).

(** The text [place] writes for a label on a row whose interior (the
    columns strictly between the first and the last non-blank one) has
    [avail] columns: the label between two blanks, cut to [avail]
    characters. *)
Definition label_text (avail : Z) (text : pystr) : pystr :=
  firstn (Z.to_nat avail) (space :: text ++ [space]).

(** The column where [place] starts writing. *)
Definition label_start (first last : Z) (txt : pystr) (align : Align) : Z :=
  match align with
  | AlignLeft => first + 1
  | AlignRight => last - Z.of_nat (length txt)
  | AlignCenter => first + 1 + (last - first - 1 - Z.of_nat (length txt)) / 2
  end.

(** [row'] has the first and the last non-blank column of [row], with the
    same two characters in them. *)
Definition same_ends (row row' : pystr) : Prop :=
  first_nonblank row' 0 = first_nonblank row 0
  /\ last_nonblank row' = last_nonblank row
  /\ forall f, first_nonblank row 0 = Some f ->
       nth_error row' f = nth_error row f
       /\ nth_error row' (Z.to_nat (last_nonblank row))
          = nth_error row (Z.to_nat (last_nonblank row)).

(** No wedge comes after one of strictly smaller fraction. *)
Fixpoint non_increasing {F} {PF : PyFloat F} (ws : list (Wedge F)) : bool :=
  match ws with
  | [] => true
  | w :: rest =>
      forallb (fun y => negb (flt (w_frac w) (w_frac y))) rest
      && non_increasing rest
  end.

(** No fraction is NaN: each equals itself. *)
Definition fractions_compare {F} {PF : PyFloat F} (ws : list (Wedge F)) : Prop :=
  Forall (fun w => feq (w_frac w) (w_frac w) = true) ws.

(** [sum(w.fraction for w in wedges)] on the reals. *)
Definition fraction_sum (ws : list (Wedge R)) : R :=
  fold_right Rplus 0%R (map w_frac ws).

(** [max(0.0, min(0.99, float(hole)))] *)
Definition hole_factor {F} {PF : PyFloat F} (o : Options F) : F :=
  py_max fzero (py_min (lit 99 100) (hole o)).

(** The samples a chart without a hole discards, and those it counts as
    near the border: the tests on the outer radius alone. *)
Definition discarded_outer {F} {PF : PyFloat F} (o : Options F) (r : F) : bool :=
  flt (fadd (of_int (radius o)) (lit 1 1000000)) r.

Definition near_outer_border {F} {PF : PyFloat F} (o : Options F) (r : F) : bool :=
  match border o with
  | None => false
  | Some _ => flt (fabs (fsub r (of_int (radius o)))) (border_softness o)
  end.

(** The display angle of a raw angle, in closed form: the raw angle,
    measured from 12 o'clock when [start_at_12], with its sign changed
    when [clockwise], brought into [0, 2 pi). *)
Definition display_angle (o : Options R) (a : R) : R :=
  let s := if start_at_12 o then (PI / 2)%R else 0%R in
  Exact.Rmod (if clockwise o then (s - a)%R else (a - s)%R) turn.

(** The [k]-th sampling offset, in exact arithmetic. *)
Definition exact_offset (n k : Z) : R :=
  ((IZR k + 1) / (IZR n + 1) - 1 / 2)%R.

(** ** Lists, ranges and strings *)

Lemma range_length lo hi : length (range lo hi) = Z.to_nat (hi - lo).
Proof. unfold range. now rewrite length_map, length_seq. Qed.

Lemma set_at_length {A} n (c : A) l : length (set_at n c l) = length l.
Proof.
  revert n; induction l as [|x l IH]; intros [|n]; simpl; auto.
Qed.

Lemma set_at_nth_error_other {A} n (c : A) l k :
  k <> n -> nth_error (set_at n c l) k = nth_error l k.
Proof.
  revert n k; induction l as [|x l IH]; intros [|n] [|k] H; simpl; auto.
  - congruence.
Qed.

Lemma set_at_nth_error_same {A} n (c : A) l :
  (n < length l)%nat -> nth_error (set_at n c l) n = Some c.
Proof.
  revert n; induction l as [|x l IH]; intros [|n] H; simpl in *; auto; try lia.
  apply IH; lia.
Qed.

Lemma set_at_nth_same {A} n (c d : A) l :
  (n < length l)%nat -> nth n (set_at n c l) d = c.
Proof.
  revert n; induction l as [|x l IH]; intros [|n] H; simpl in *; auto; try lia.
  apply IH; lia.
Qed.

Lemma set_at_nth_other {A} n (c d : A) l k :
  k <> n -> nth k (set_at n c l) d = nth k l d.
Proof.
  revert n k; induction l as [|x l IH]; intros [|n] [|k] H; simpl; auto.
  congruence.
Qed.

Lemma overwrite_length row col text :
  length (overwrite row col text) = length row.
Proof.
  revert row col; induction text as [|ch text IH]; intros row col; simpl; auto.
  rewrite IH. destruct (_ && _); auto using set_at_length.
Qed.

(** [overwrite] touches the columns [col .. col + len(text) - 1] only. *)
Lemma overwrite_frame row col text c :
  Z.of_nat c < col \/ col + Z.of_nat (length text) <= Z.of_nat c ->
  nth_error (overwrite row col text) c = nth_error row c.
Proof.
  revert row col; induction text as [|ch text IH]; intros row col H; simpl; auto.
  rewrite IH by (simpl length in H; lia).
  destruct (_ && _) eqn:E; auto.
  apply set_at_nth_error_other. simpl length in H.
  apply andb_true_iff in E as [E1 E2]. apply Z.leb_le in E1. lia.
Qed.

Lemma take_length_le {A} n (l : list A) :
  0 <= n -> Z.of_nat (length (take n l)) <= n.
Proof.
  intros H. unfold take. destruct (0 <=? n) eqn:E; [|apply Z.leb_gt in E; lia].
  rewrite length_firstn. lia.
Qed.

(** ** The rendered span of a row *)

Lemma first_nonblank_some row k f :
  first_nonblank row k = Some f ->
  (k <= f)%nat /\ exists ch, nth_error row (f - k) = Some ch /\ ch <> space.
Proof.
  revert k; induction row as [|c row IH]; intros k H; simpl in H; [discriminate|].
  destruct (N.eqb_spec c space) as [E|E].
  - apply IH in H as (Hk & ch & Hn & Hc). split; [lia|].
    exists ch. split; auto.
    replace (f - k)%nat with (S (f - S k)) by lia. exact Hn.
  - injection H as <-. split; [lia|]. exists c. rewrite Nat.sub_diag. auto.
Qed.

Lemma first_nonblank_none row k :
  first_nonblank row k = None -> forall ch, In ch row -> ch = space.
Proof.
  revert k; induction row as [|c row IH]; intros k H ch Hin; simpl in *; [tauto|].
  destruct (N.eqb_spec c space) as [E|E]; [|discriminate].
  destruct Hin as [<-|Hin]; eauto.
Qed.

Lemma first_nonblank_blank row k :
  (forall ch, In ch row -> ch = space) -> first_nonblank row k = None.
Proof.
  revert k; induction row as [|c row IH]; intros k H; simpl; auto.
  rewrite (H c (or_introl eq_refl)). simpl. apply IH. intros; apply H; now right.
Qed.

(** A row with a first non-blank column has a last one, and the source's
    [last] is that column. *)
Lemma last_nonblank_spec row f :
  first_nonblank row 0 = Some f ->
  exists l ch, last_nonblank row = Z.of_nat l /\ nth_error row l = Some ch
               /\ ch <> space.
Proof.
  intros Hf. unfold last_nonblank.
  destruct (first_nonblank (rev row) 0) as [g|] eqn:Hg.
  - apply first_nonblank_some in Hg as (_ & ch & Hn & Hc).
    rewrite Nat.sub_0_r in Hn.
    assert (Hlt : (g < length row)%nat).
    { rewrite <- length_rev. apply nth_error_Some. congruence. }
    exists (length row - 1 - g)%nat, ch. repeat split; auto; [lia|].
    rewrite nth_error_rev in Hn.
    assert (E : (g <? length row)%nat = true) by (apply Nat.ltb_lt; lia).
    rewrite E in Hn.
    replace (length row - 1 - g)%nat with (length row - S g)%nat by lia.
    exact Hn.
  - exfalso. apply first_nonblank_some in Hf as (_ & ch & Hn & Hc).
    apply Hc. eapply first_nonblank_none; eauto.
    apply -> in_rev. eapply nth_error_In; eauto.
Qed.

Lemma place_row_length row text align :
  length (place_row row text align) = length row.
Proof.
  unfold place_row. destruct (first_nonblank row 0); auto.
  destruct (_ <=? _); auto. apply overwrite_length.
Qed.

(** [place] writes strictly between the first and the last non-blank
    column of its row. *)
Lemma place_row_frame row text align c :
  outside_span row c ->
  nth_error (place_row row text align) c = nth_error row c.
Proof.
  intros Hout. unfold place_row.
  destruct (first_nonblank row 0) as [f|] eqn:Hf; auto.
  destruct (last_nonblank row <=? Z.of_nat f) eqn:Hle; auto.
  apply Z.leb_gt in Hle.
  destruct (last_nonblank_spec _ _ Hf) as (l & chl & Hl & Hnl & Hcl).
  destruct (first_nonblank_some _ _ _ Hf) as (_ & chf & Hnf & Hcf).
  rewrite Nat.sub_0_r in Hnf. rewrite Hl in *.
  set (full := space :: text ++ [space]).
  set (avail := Z.of_nat l - 1 - (Z.of_nat f + 1) + 1).
  set (txt := if avail <? Z.of_nat (length full)
              then take (Z.max 0 avail) full else full).
  assert (Hlen : Z.of_nat (length txt) <= avail).
  { unfold txt. destruct (avail <? Z.of_nat (length full)) eqn:E.
    - pose proof (take_length_le (Z.max 0 avail) full). unfold avail in *. lia.
    - apply Z.ltb_ge in E. lia. }
  apply overwrite_frame.
  destruct Hout as [Hup|Hfrom].
  - left. assert (c < f)%nat.
    { destruct (Nat.lt_ge_cases c f); auto. exfalso. apply Hcf. eapply Hup; eauto. }
    destruct align.
    + lia.
    + unfold avail in Hlen. lia.
    + assert (0 <= (avail - Z.of_nat (length txt)) / 2)
        by (apply Z.div_pos; lia).
      lia.
  - right. assert (l < c)%nat.
    { destruct (Nat.lt_ge_cases l c); auto. exfalso. apply Hcl. eapply Hfrom; eauto. }
    destruct align.
    + unfold avail in Hlen. lia.
    + lia.
    + assert ((avail - Z.of_nat (length txt)) / 2 <= avail - Z.of_nat (length txt))
        by (apply Z.div_le_upper_bound; lia).
      unfold avail in *. lia.
Qed.

Lemma blank_upto_le row c k : blank_upto row c -> (k <= c)%nat -> blank_upto row k.
Proof. intros H Hk i ch Hi. apply H. lia. Qed.

Lemma blank_from_ge row c k : blank_from row c -> (c <= k)%nat -> blank_from row k.
Proof. intros H Hk i ch Hi. apply H. lia. Qed.

Lemma place_row_outside row text align c :
  outside_span row c -> outside_span (place_row row text align) c.
Proof.
  intros [H|H]; [left|right]; intros k ch Hk Hn.
  - rewrite place_row_frame in Hn by (left; eapply blank_upto_le; eauto).
    eapply H; eauto.
  - rewrite place_row_frame in Hn by (right; eapply blank_from_ge; eauto).
    eapply H; eauto.
Qed.

(** ** Label overlay: lengths and frame *)

Section Overlay.

Context {F : Type} {PF : PyFloat F}.

Lemma nth_set_at_row n (row : pystr) (lines : list pystr) k :
  (n < length lines)%nat ->
  nth k (set_at n row lines) [] = if Nat.eqb k n then row else nth k lines [].
Proof.
  intros Hn. destruct (Nat.eqb_spec k n) as [->|Hk].
  - now apply set_at_nth_same.
  - now apply set_at_nth_other.
Qed.

Lemma place_length lines row_idx text align :
  length (place lines row_idx text align) = length lines.
Proof.
  unfold place. destruct (nth_error _ _); auto using set_at_length.
Qed.

Lemma place_nth lines row_idx text align k :
  nth k (place lines row_idx text align) [] = nth k lines []
  \/ nth k (place lines row_idx text align) [] = place_row (nth k lines []) text align.
Proof.
  unfold place. destruct (nth_error lines (Z.to_nat row_idx)) as [row|] eqn:E; auto.
  assert (Hlt : (Z.to_nat row_idx < length lines)%nat)
    by (apply nth_error_Some; congruence).
  rewrite nth_set_at_row by auto.
  destruct (Nat.eqb_spec k (Z.to_nat row_idx)) as [->|Hk]; auto.
  right. now rewrite (nth_error_nth _ _ _ E).
Qed.

Lemma place_row_lengths lines row_idx text align k :
  length (nth k (place lines row_idx text align) []) = length (nth k lines []).
Proof.
  destruct (place_nth lines row_idx text align k) as [->| ->];
    auto using place_row_length.
Qed.

Lemma place_frame lines row_idx text align r c :
  outside_span (nth r lines []) c ->
  nth_error (nth r (place lines row_idx text align) []) c
    = nth_error (nth r lines []) c
  /\ outside_span (nth r (place lines row_idx text align) []) c.
Proof.
  intros H.
  destruct (place_nth lines row_idx text align r) as [->| ->];
    auto using place_row_frame, place_row_outside.
Qed.

Lemma fold_place_length (o : Options F) wts lines :
  length (fold_left (place_one o) wts lines) = length lines.
Proof.
  revert lines; induction wts as [|[w [ri al]] wts IH]; intros lines; simpl; auto.
  rewrite IH. apply place_length.
Qed.

Lemma fold_place_row_lengths (o : Options F) wts lines k :
  length (nth k (fold_left (place_one o) wts lines) []) = length (nth k lines []).
Proof.
  revert lines; induction wts as [|[w [ri al]] wts IH]; intros lines; simpl; auto.
  rewrite IH. apply place_row_lengths.
Qed.

Lemma place_labels_length (o : Options F) ws lines :
  length (place_labels o ws lines) = length lines.
Proof.
  unfold place_labels. destruct (_ || _); auto using fold_place_length.
Qed.

Lemma place_labels_row_lengths (o : Options F) ws lines k :
  length (nth k (place_labels o ws lines) []) = length (nth k lines []).
Proof.
  unfold place_labels. destruct (_ || _); auto using fold_place_row_lengths.
Qed.

Lemma rasterize_length (o : Options F) ws :
  length (rasterize o ws) = Z.to_nat (2 * radius o + 1).
Proof.
  unfold rasterize. rewrite length_map, range_length. f_equal. lia.
Qed.

Lemma raster_row_length (o : Options F) ws j :
  length (raster_row o ws j) = Z.to_nat (2 * radius o + 1).
Proof.
  unfold raster_row. rewrite length_map, range_length. f_equal. lia.
Qed.

Lemma rasterize_rows (o : Options F) ws row :
  In row (rasterize o ws) -> length row = Z.to_nat (2 * radius o + 1).
Proof.
  unfold rasterize. intros H. apply in_map_iff in H as (j & <- & _).
  apply raster_row_length.
Qed.

End Overlay.

(** C6: label placement leaves every column outside a row's rendered span
    (the columns before its first, or after its last, non-blank character
    as the rasterizer produced them) exactly as it was. *)
Theorem label_overlay_keeps_outside_span {F : Type} {PF : PyFloat F}
    (o : Options F) (labels : list pystr) (counts : list Z) (r c : nat) :
  let ws := wedges_of o labels counts in
  outside_span (nth r (rasterize o ws) []) c ->
  nth_error (nth r (place_labels o ws (rasterize o ws)) []) c
    = nth_error (nth r (rasterize o ws) []) c.
Proof.
  intros ws Hout. unfold place_labels.
  destruct (_ || _); [reflexivity|].
  set (wts := combine _ _). clearbody wts.
  revert Hout. generalize (rasterize o ws) as lines.
  induction wts as [|[w [ri al]] wts IH]; intros lines Hout; simpl; auto.
  destruct (place_frame lines ri
              (fmt (label_mode o) (w_lab w) (w_frac w) (w_val w)) al r c Hout)
    as [E Hout'].
  rewrite IH by exact Hout'. exact E.
Qed.

(** C7: for a positive radius the rasterized body has exactly
    [2 * radius + 1] rows of exactly [2 * radius + 1] characters, and the
    label overlay keeps the number of rows and the length of every row. *)
Theorem raster_dimensions {F : Type} {PF : PyFloat F}
    (o : Options F) (labels : list pystr) (counts : list Z) :
  0 < radius o ->
  let ws := wedges_of o labels counts in
  let body := rasterize o ws in
  Z.of_nat (length body) = 2 * radius o + 1
  /\ (forall row, In row body -> Z.of_nat (length row) = 2 * radius o + 1)
  /\ Z.of_nat (length (place_labels o ws body)) = 2 * radius o + 1
  /\ (forall k, length (nth k (place_labels o ws body) []) = length (nth k body [])).
Proof.
  intros Hr ws body. unfold body. repeat split.
  - rewrite rasterize_length. lia.
  - intros row H. rewrite (rasterize_rows _ _ _ H). lia.
  - rewrite place_labels_length, rasterize_length. lia.
  - intros k. apply place_labels_row_lengths.
Qed.

(** ** The vote dictionary *)

Lemma keys_vote g vs :
  keys (vote g vs) = keys vs \/ (~ In g (keys vs) /\ keys (vote g vs) = keys vs ++ [g]).
Proof.
  induction vs as [|[c n] vs IH]; simpl.
  - right. split; auto.
  - destruct (N.eqb_spec c g) as [->|Hc]; simpl; auto.
    destruct IH as [->|[Hn ->]]; auto.
    right. split; auto. intros [H|H]; auto.
Qed.

Lemma in_keys_vote g vs : In g (keys (vote g vs)).
Proof.
  induction vs as [|[c n] vs IH]; simpl; auto.
  destruct (N.eqb_spec c g) as [->|Hc]; simpl; auto.
Qed.

Lemma nodup_vote g vs : NoDup (keys vs) -> NoDup (keys (vote g vs)).
Proof.
  intros H. destruct (keys_vote g vs) as [->|[Hn ->]]; auto.
  apply NoDup_app; auto.
  - repeat constructor. intros [].
  - intros x Hx [<-|[]]. auto.
Qed.

Lemma in_keys k n (vs : list (pychar * Z)) : In (k, n) vs -> In k (keys vs).
Proof. intros H. apply (in_map fst) in H. exact H. Qed.

Lemma in_vote k n g vs :
  NoDup (keys vs) ->
  In (k, n) (vote g vs) ->
  (k <> g /\ In (k, n) vs)
  \/ (k = g /\ (In (g, n - 1) vs \/ (n = 1 /\ ~ In g (keys vs)))).
Proof.
  induction vs as [|[c m] vs IH]; simpl; intros Hnd.
  - intros [H|[]]. injection H as <- <-. right. split; auto.
  - inversion Hnd as [|? ? Hc Hnd']; subst.
    destruct (N.eqb_spec c g) as [->|Hcg]; simpl.
    + intros [H|H].
      * injection H as <- <-. right. split; auto. left. left. f_equal. lia.
      * left. split; auto. intros ->. apply Hc. eapply in_keys; eauto.
    + intros [H|H].
      * injection H as <- <-. left. auto.
      * apply (IH Hnd') in H as [[Hk H]|[-> [H|[-> Hn]]]]; auto.
        right. split; auto. right. split; auto. intros [E|E]; auto.
Qed.

Lemma nodup_tally_votes gs vs :
  NoDup (keys vs) -> NoDup (keys (tally_votes gs vs)).
Proof.
  revert vs; induction gs as [|g gs IH]; intros vs H; simpl; auto.
  apply IH. now apply nodup_vote.
Qed.

Lemma votes_for_cons g k gs :
  votes_for k (g :: gs) = (if N.eq_dec g k then 1 else 0) + votes_for k gs.
Proof.
  unfold votes_for. simpl. destruct (N.eq_dec g k); lia.
Qed.

(** Every item of the dictionary counts the occurrences of its key. *)
Lemma tally_votes_count gs : forall vs, NoDup (keys vs) ->
  forall k n, In (k, n) (tally_votes gs vs) ->
  exists n0, (In (k, n0) vs \/ (n0 = 0 /\ ~ In k (keys vs)))
             /\ n = n0 + votes_for k gs.
Proof.
  induction gs as [|g gs IH]; intros vs Hnd k n H; simpl in H.
  - exists n. split; auto. unfold votes_for. simpl. lia.
  - destruct (IH _ (nodup_vote g vs Hnd) k n H) as (n1 & Hin & Hn).
    rewrite votes_for_cons.
    destruct Hin as [Hin|[-> Hnk]].
    + apply (in_vote _ _ _ _ Hnd) in Hin as [[Hk Hin]|[-> [Hin|[-> Hng]]]].
      * exists n1. split; auto. destruct (N.eq_dec g k); [congruence|lia].
      * exists (n1 - 1). split; auto. destruct (N.eq_dec g g); [lia|congruence].
      * exists 0. split; auto. destruct (N.eq_dec g g); [lia|congruence].
    + assert (k <> g) by (intros ->; apply Hnk, in_keys_vote).
      exists 0. split.
      * right. split; auto. intros Hk. apply Hnk.
        destruct (keys_vote g vs) as [->|[_ ->]]; auto. apply in_or_app; auto.
      * destruct (N.eq_dec g k); [congruence|lia].
Qed.

Lemma tally_votes_keys_prefix gs : forall vs,
  exists more, keys (tally_votes gs vs) = keys vs ++ more.
Proof.
  induction gs as [|g gs IH]; intros vs; simpl.
  - exists []. now rewrite app_nil_r.
  - destruct (IH (vote g vs)) as (more & ->).
    destruct (keys_vote g vs) as [->|[_ ->]].
    + now exists more.
    + exists ([g] ++ more). now rewrite <- app_assoc.
Qed.

(** A prefix that does not hold [k] ends before the first [k]. *)
Lemma prefix_before (k : pychar) p more k1 k2 :
  p ++ more = k1 ++ k :: k2 -> ~ In k p -> forall x, In x p -> In x k1.
Proof.
  revert k1; induction p as [|y p IH]; intros k1 E Hk x Hx; simpl in *; [tauto|].
  destruct k1 as [|z k1]; simpl in E; injection E as -> E.
  - exfalso. auto.
  - destruct Hx as [->|Hx]; [now left|right]. eapply IH; eauto.
Qed.

(** Keys are kept in the order in which the glyphs are first met. *)
Lemma tally_votes_first gs : forall vs v1 k n v2,
  tally_votes gs vs = v1 ++ (k, n) :: v2 ->
  In k (keys vs)
  \/ exists pre post, gs = pre ++ k :: post /\ ~ In k pre
                      /\ forall x, In x pre -> In x (keys v1).
Proof.
  induction gs as [|g gs IH]; intros vs v1 k n v2 E; simpl in E.
  - left. rewrite E. unfold keys. rewrite map_app. apply in_or_app. right. now left.
  - destruct (in_dec N.eq_dec k (keys (vote g vs))) as [Hin|Hnin].
    + destruct (keys_vote g vs) as [Hk|[Hng Hk]]; rewrite Hk in Hin; auto.
      apply in_app_or in Hin as [Hin|[<-|[]]]; auto.
      right. exists [], gs. repeat split; auto. intros x [].
    + destruct (IH _ _ _ _ _ E) as [Hin|(pre & post & Hgs & Hpre & Hall)]; [tauto|].
      right. exists (g :: pre), post. split; [|split].
      * simpl. now rewrite Hgs.
      * intros [->|H]; auto. apply Hnin, in_keys_vote.
      * intros x [<-|Hx]; auto.
        destruct (tally_votes_keys_prefix gs (vote g vs)) as (more & Hm).
        rewrite E in Hm. unfold keys in Hm at 1. rewrite map_app in Hm. simpl in Hm.
        apply (prefix_before k (keys (vote g vs)) more (map fst v1) (map fst v2));
          [now symmetry | exact Hnin | apply in_keys_vote].
Qed.

(** [max] returns the first item with the largest count. *)
Lemma max_item_spec vs : forall p1 best p2,
  (forall kv, In kv p1 -> snd kv < snd best) ->
  (forall kv, In kv p2 -> snd kv <= snd best) ->
  exists v1 v2,
    p1 ++ best :: p2 ++ vs = v1 ++ max_item best vs :: v2
    /\ (forall kv, In kv v1 -> snd kv < snd (max_item best vs))
    /\ (forall kv, In kv v2 -> snd kv <= snd (max_item best vs)).
Proof.
  induction vs as [|kv vs IH]; intros p1 best p2 H1 H2; simpl.
  - exists p1, p2. rewrite app_nil_r. auto.
  - destruct (snd best <? snd kv) eqn:E.
    + apply Z.ltb_lt in E.
      destruct (IH (p1 ++ best :: p2) kv []) as (v1 & v2 & Heq & Hv1 & Hv2).
      * intros x Hx. apply in_app_or in Hx as [Hx|[<-|Hx]]; auto.
        -- specialize (H1 _ Hx). lia.
        -- specialize (H2 _ Hx). lia.
      * intros x [].
      * exists v1, v2. split; auto. rewrite <- Heq. simpl.
        rewrite <- app_assoc. reflexivity.
    + apply Z.ltb_ge in E.
      destruct (IH p1 best (p2 ++ [kv])) as (v1 & v2 & Heq & Hv1 & Hv2); auto.
      * intros x Hx. apply in_app_or in Hx as [Hx|[<-|[]]]; auto.
      * exists v1, v2. split; auto. rewrite <- Heq.
        rewrite <- app_assoc. reflexivity.
Qed.

Lemma tally_votes_in_keys gs : forall vs g,
  In g gs -> In g (keys (tally_votes gs vs)).
Proof.
  induction gs as [|g gs IH]; intros vs x Hx; [destruct Hx|].
  simpl. destruct Hx as [<-|Hx]; auto.
  destruct (tally_votes_keys_prefix gs (vote g vs)) as (more & ->).
  apply in_or_app. left. apply in_keys_vote.
Qed.

(** The majority glyph of a non-empty sequence of votes. *)
Lemma majority_spec gs :
  gs <> [] -> first_with_most_votes (majority (tally_votes gs [])) gs.
Proof.
  intros Hne.
  assert (Hcount : forall k n, In (k, n) (tally_votes gs []) -> n = votes_for k gs).
  { intros k n H. destruct (tally_votes_count gs [] (NoDup_nil _) k n H)
      as (n0 & [[]|[-> _]] & ->). lia. }
  pose proof (tally_votes_in_keys gs []) as Hkeys.
  remember (tally_votes gs []) as V eqn:EV.
  destruct V as [|kv vs].
  { destruct gs as [|g gs]; [congruence|]. destruct (Hkeys g (or_introl eq_refl)). }
  destruct (max_item_spec vs [] kv []) as (v1 & v2 & Heq & Hv1 & Hv2);
    try (intros ? []).
  simpl in Heq. unfold majority.
  destruct (max_item kv vs) as [k n]. cbn [fst snd] in *.
  rewrite Heq in EV, Hcount, Hkeys. clear Heq kv vs.
  destruct (tally_votes_first gs [] v1 k n v2 (eq_sym EV))
    as [[]|(pre & post & Hgs & Hpre & Hall)].
  assert (Hn : n = votes_for k gs).
  { apply Hcount. apply in_or_app. right. now left. }
  assert (Hpos : 0 < votes_for k gs).
  { rewrite Hgs. unfold votes_for. rewrite count_occ_app. simpl.
    destruct (N.eq_dec k k); [lia|congruence]. }
  exists pre, post. repeat split; auto.
  - intros g'. destruct (in_dec N.eq_dec g' gs) as [Hin|Hnin].
    + apply Hkeys in Hin.
      unfold keys in Hin. apply in_map_iff in Hin as ([k' n'] & Hk & Hin).
      simpl in Hk. subst k'.
      pose proof (Hcount _ _ Hin) as Hn'.
      apply in_app_or in Hin as [Hin|[Hin|Hin]].
      * specialize (Hv1 _ Hin). simpl in Hv1. lia.
      * injection Hin as <- <-. lia.
      * specialize (Hv2 _ Hin). simpl in Hv2. lia.
    + unfold votes_for at 1.
      rewrite (proj1 (count_occ_not_In N.eq_dec gs g') Hnin). lia.
  - intros g' Hg'. apply Hall in Hg'.
    unfold keys in Hg'. apply in_map_iff in Hg' as ([k' n'] & Hk & Hin).
    simpl in Hk. subst k'.
    assert (n' = votes_for g' gs) by (apply Hcount, in_or_app; auto).
    specialize (Hv1 _ Hin). simpl in Hv1. lia.
Qed.

(** ** Rasterisation of a cell *)

Section Cells.

Context {F : Type} {PF : PyFloat F}.
Variables (o : Options F) (ws : list (Wedge F)) (i j : Z).

Let is_in (d : F * F) : bool :=
  negb (discarded o (sample_r o i j (fst d) (snd d))).
Let is_near (d : F * F) : bool := near_border o (sample_r o i j (fst d) (snd d)).
Let glyph_of (d : F * F) : pychar := sample_glyph o ws i j (fst d) (snd d).

Lemma fold_sample_step l : forall t,
  fold_left (sample_step o ws i j) l t
  = mkTally (tally_votes (map glyph_of (filter is_in l)) (votes t))
            (border_vote t + Z.of_nat (length (filter is_near (filter is_in l))))
            (inside t + Z.of_nat (length (filter is_in l))).
Proof.
  induction l as [|[dy dx] l IH]; intros [vs bv n].
  - simpl. f_equal; lia.
  - cbn [fold_left filter]. rewrite IH.
    assert (Ein : is_in (dy, dx) = negb (discarded o (sample_r o i j dy dx)))
      by reflexivity.
    assert (Enr : is_near (dy, dx) = near_border o (sample_r o i j dy dx))
      by reflexivity.
    rewrite Ein. unfold sample_step.
    destruct (discarded o (sample_r o i j dy dx)); cbn [negb]; auto.
    cbn [filter map length votes border_vote inside]. rewrite Enr.
    destruct (near_border o (sample_r o i j dy dx)); cbn [length];
      f_equal; lia.
Qed.

Lemma tally_cell_spec :
  tally_cell o ws i j
  = mkTally (tally_votes (glyphs_voted o ws i j) [])
            (border_votes o i j)
            (Z.of_nat (length (glyphs_voted o ws i j))).
Proof.
  unfold tally_cell. rewrite fold_sample_step. simpl.
  unfold glyphs_voted, border_votes, inside_samples. now rewrite length_map.
Qed.

(** [max] is never called on an empty dictionary. *)
Lemma votes_nonempty :
  inside (tally_cell o ws i j) <> 0 -> votes (tally_cell o ws i j) <> [].
Proof.
  rewrite tally_cell_spec. simpl. intros Hn E.
  destruct (glyphs_voted o ws i j) as [|g gs]; [simpl in Hn; lia|].
  pose proof (tally_votes_in_keys (g :: gs) [] g (or_introl eq_refl)) as H.
  rewrite E in H. destruct H.
Qed.

End Cells.

Lemma list_prod_flat_map {A B} (l : list A) (l' : list B) :
  list_prod l l' = flat_map (fun x => map (fun y => (x, y)) l') l.
Proof. induction l as [|x l IH]; simpl; [|rewrite IH]; reflexivity. Qed.

Lemma third_exceeded n bv : (n / 3 <? bv) = (n <? 3 * bv).
Proof.
  destruct (Z.ltb_spec (n / 3) bv) as [H|H], (Z.ltb_spec n (3 * bv)) as [H'|H'];
    auto; exfalso.
  - assert (bv <= n / 3) by (apply Z.div_le_lower_bound; lia). lia.
  - assert (n / 3 < bv) by (apply Z.div_lt_upper_bound; lia). lia.
Qed.

(** C2: resolution of a cell after supersampling.  With no sample inside,
    the cell is blank.  Otherwise, when a border glyph is configured and
    the border votes exceed a third of the inside samples, the cell is the
    border glyph, whatever the wedge votes are.  Otherwise it is the glyph
    with the most votes and, among those, the one met first in scan order
    (outer loop over the vertical offsets, inner loop over the horizontal
    ones, both ascending in their index). *)
Theorem cell_resolution {F : Type} {PF : PyFloat F}
    (o : Options F) (ws : list (Wedge F)) (i j : Z) :
  let gs := glyphs_voted o ws i j in
  let n := Z.of_nat (length (inside_samples o i j)) in
  let bv := border_votes o i j in
  length gs = length (inside_samples o i j)
  /\ scan o = flat_map (fun dy => map (fun dx => (dy, dx)) (offsets o)) (offsets o)
  /\ offsets o
     = map (fun k => fsub (fmul (of_int (k + 1)) (step o)) (lit 1 2))
           (range 0 (samples o))
  /\ (n = 0 -> cell o ws i j = space)
  /\ (forall b, 0 < n -> border o = Some b -> n < 3 * bv -> cell o ws i j = b)
  /\ (0 < n -> border o = None \/ 3 * bv <= n ->
      first_with_most_votes (cell o ws i j) gs).
Proof.
  intros gs n bv.
  assert (Hlen : length gs = length (inside_samples o i j))
    by (unfold gs, glyphs_voted; apply length_map).
  split; [exact Hlen|]. split; [apply list_prod_flat_map|]. split; [reflexivity|].
  unfold cell, resolve. rewrite tally_cell_spec. cbn [inside votes border_vote].
  fold gs. rewrite Hlen. fold n. fold bv. rewrite third_exceeded.
  split; [|split].
  - intros ->. reflexivity.
  - intros b Hn Hb Hbv.
    destruct (Z.eqb_spec n 0); [lia|]. rewrite Hb.
    destruct (Z.ltb_spec n (3 * bv)); [reflexivity|lia].
  - intros Hn Hcase.
    destruct (Z.eqb_spec n 0); [lia|].
    assert (Hgs : gs <> []).
    { intros E. rewrite E in Hlen. simpl in Hlen. unfold n in Hn. lia. }
    destruct Hcase as [->|Hle].
    + now apply majority_spec.
    + destruct (border o); [|now apply majority_spec].
      destruct (Z.ltb_spec n (3 * bv)); [lia|now apply majority_spec].
Qed.

(** ** The donut hole *)

Lemma all_discarded_blank {F : Type} {PF : PyFloat F}
    (o : Options F) (ws : list (Wedge F)) (i j : Z) :
  forallb (fun d => discarded o (sample_r o i j (fst d) (snd d))) (scan o) = true ->
  cell o ws i j = space.
Proof.
  intros H. unfold cell, resolve. rewrite tally_cell_spec. cbn [inside].
  unfold glyphs_voted, inside_samples.
  rewrite forallb_forall in H.
  assert (E : filter (fun d => negb (discarded o (sample_r o i j (fst d) (snd d))))
                (scan o) = []).
  { induction (scan o) as [|d l IH]; simpl; auto.
    rewrite (H d (or_introl eq_refl)). simpl. apply IH.
    intros x Hx. apply H. now right. }
  rewrite E. reflexivity.
Qed.

(** C8, as the renderer has it: a cell all of whose samples satisfy
    [r < inner - 1e-6] is blank. *)
Theorem blank_inside_hole {F : Type} {PF : PyFloat F}
    (o : Options F) (ws : list (Wedge F)) (i j : Z) :
  below_inner_eps o i j = true -> cell o ws i j = space.
Proof.
  intros H. apply all_discarded_blank.
  unfold below_inner_eps in H. rewrite forallb_forall in *.
  intros d Hd. unfold discarded. rewrite (H d Hd). apply orb_true_r.
Qed.

(** C8, as stated, fails: [radius = 1], [hole = 1e-7], [samples = 1].  The
    only sample of cell (0, 0) is its centre, [r = 0 < inner = 1e-7], yet
    [r >= inner - 1e-6], so the sample counts and the cell shows the border. *)
Lemma blank_below_inner_fails :
  let o : Options float :=
    mkOptions 1 (lit 1 10000000) true true 1 (lit 24 10) (Some default_border)
              (lit 45 100) [] true Percent 4 [] in
  ~ blank_below_inner o (wedges_of o [py "A"] [10]) 0 0.
Proof.
  intros o H.
  assert (E : cell o (wedges_of o [py "A"] [10]) 0 0 = default_border)
    by (vm_compute; reflexivity).
  rewrite H in E; [discriminate E| |]; vm_compute; reflexivity.
Qed.

Lemma blank_inside_hole_witness :
  let o : Options float :=
    mkOptions 4 (lit 1 2) true true 4 (lit 24 10) (Some default_border)
              (lit 45 100) [] true Percent 4 [] in
  cell o (wedges_of o [py "A"] [10]) 0 0 = space.
Proof.
  intros o. apply (blank_inside_hole o). vm_compute. reflexivity.
Defined.

(** ** Wedges *)

Section Wedges.

Context {F : Type} {PF : PyFloat F}.



Lemma build_wedges_chained glyphs total items : forall i cum,
  chained cum (build_wedges glyphs total i cum items).
Proof.
  induction items as [|[lab val] items IH]; intros i cum; simpl; auto.
Qed.


Lemma build_wedges_glyph glyphs total items : forall i cum k w,
  nth_error (build_wedges glyphs total i cum items) k = Some w ->
  w_ch w = glyph_at glyphs (i + k).
Proof.
  induction items as [|[lab val] items IH]; intros i cum k w; simpl.
  - destruct k; discriminate.
  - destruct k as [|k]; simpl.
    + intros H. injection H as <-. simpl. now rewrite Nat.add_0_r.
    + intros H. apply IH in H. rewrite H. f_equal. lia.
Qed.


Lemma map_snd_combine {A B} (l : list A) (l' : list B) :
  length l = length l' -> map snd (combine l l') = l'.
Proof.
  revert l'; induction l as [|x l IH]; intros [|y l'] H; simpl in *;
    try discriminate; auto.
  f_equal. apply IH. lia.
Qed.



(** *** Lookup *)

Lemma wedge_char_in ws x : matches_any ws x = true -> In (wedge_char ws x) (map w_ch ws).
Proof.
  induction ws as [|w ws IH]; simpl; [discriminate|].
  replace (match ws with [] => true | _ :: _ => false end) with (is_empty ws)
    by (destruct ws; reflexivity).
  destruct (wedge_matches w (is_empty ws) x); simpl; auto.
Qed.

Lemma lookup_matches ws : forall start x,
  ws <> [] -> chained start ws -> fle start x = true ->
  comparable ws x = true -> matches_any ws x = true.
Proof.
  induction ws as [|w ws IH]; intros start x Hne Hc Hx Hcmp; [congruence|].
  destruct Hc as [Ha0 Hch].
  simpl in *. apply andb_true_iff in Hcmp as [Hw Hcmp].
  destruct ws as [|w' ws].
  - unfold wedge_matches. rewrite Ha0, Hx. simpl.
    now rewrite orb_true_r.
  - change (is_empty (w' :: ws)) with false.
    unfold wedge_matches at 1. rewrite Ha0, Hx. simpl andb. rewrite orb_false_r.
    destruct (flt x (w_a1 w)) eqn:E; simpl; auto.
    simpl in Hw. apply (IH (w_a1 w)); auto. discriminate.
Qed.

End Wedges.

(** ** Exact arithmetic: comparisons *)

Lemma Rltb_true a b : Exact.Rltb a b = true <-> (a < b)%R.
Proof. unfold Exact.Rltb. destruct (Rlt_dec a b); split; auto; discriminate. Qed.

Lemma Rltb_false a b : Exact.Rltb a b = false <-> (b <= a)%R.
Proof.
  unfold Exact.Rltb. destruct (Rlt_dec a b); split; auto; try discriminate; lra.
Qed.

Lemma Rleb_true a b : Exact.Rleb a b = true <-> (a <= b)%R.
Proof. unfold Exact.Rleb. destruct (Rle_dec a b); split; auto; discriminate. Qed.

Lemma Rleb_false a b : Exact.Rleb a b = false <-> (b < a)%R.
Proof.
  unfold Exact.Rleb. destruct (Rle_dec a b); split; auto; try discriminate; lra.
Qed.

Lemma Reqb_false a b : Exact.Reqb a b = false <-> a <> b.
Proof.
  unfold Exact.Reqb. destruct (Req_dec_T a b); split; auto; try discriminate; tauto.
Qed.

Lemma exact_comparable (ws : list (Wedge R)) (x : R) : comparable ws x = true.
Proof.
  unfold comparable. apply forallb_forall. intros w _. simpl.
  destruct (Exact.Rltb x (w_a1 w)) eqn:E; auto.
  apply Rltb_false in E. now apply Rleb_true.
Qed.

Lemma validated_nonempty {F : Type} {PF : PyFloat F} (o : Options F)
    labels counts :
  validated labels counts -> wedges_of o labels counts <> [].
Proof.
  intros (Hl & Hc & Hlen & _). unfold wedges_of.
  destruct labels as [|l labels], counts as [|c counts]; try congruence.
  discriminate.
Qed.

(** ** Orientation in exact arithmetic *)

Section ExactOrient.

Local Open Scope R_scope.

Lemma Rmod_range a m : 0 < m -> 0 <= Exact.Rmod a m < m.
Proof.
  intros Hm. unfold Exact.Rmod.
  destruct (base_Int_part (a / m)) as [H1 H2].
  assert (E : a / m * m = a) by (field; lra).
  set (q := a / m) in *. set (k := IZR (Int_part q)) in *.
  rewrite <- E. split; nra.
Qed.

Lemma Rmod_unique a m k :
  0 < m -> 0 <= a - IZR k * m < m -> Exact.Rmod a m = a - IZR k * m.
Proof.
  intros Hm H. unfold Exact.Rmod.
  assert (E : a / m * m = a) by (field; lra).
  replace (Int_part (a / m)) with k; auto.
  apply Int_part_spec. set (q := a / m) in *. rewrite <- E in H. split; nra.
Qed.

Lemma Rmod_small a m : 0 <= a < m -> Exact.Rmod a m = a.
Proof.
  intros H. rewrite (Rmod_unique a m 0); lra.
Qed.

Lemma Rmod_neg a m : - m <= a < 0 -> Exact.Rmod a m = a + m.
Proof.
  intros H. rewrite (Rmod_unique a m (-1)); lra.
Qed.

Lemma turn_pos : 0 < turn.
Proof. unfold turn. pose proof PI_RGT_0. lra. Qed.

Lemma Rbij_id : Rbij (fun a => a).
Proof. repeat split; try tauto. intros y Hy. now exists y. Qed.

Lemma Rbij_compose f g : Rbij f -> Rbij g -> Rbij (fun a => g (f a)).
Proof.
  intros (Hf1 & Hf2 & Hf3) (Hg1 & Hg2 & Hg3). repeat split.
  - apply Hg1, Hf1, H.
  - apply Hg1, Hf1, H.
  - intros a b Ha Hb E. apply Hf2; auto.
  - intros y Hy. destruct (Hg3 y Hy) as (z & Hz & <-).
    destruct (Hf3 z Hz) as (a & Ha & <-). now exists a.
Qed.

(** Rotation by a quarter turn: [(a - pi/2) % (2 pi)]. *)
Lemma quarter_shift a :
  0 <= a < turn ->
  Exact.Rmod (a - PI / 2) turn = if Rlt_dec a (PI / 2) then a + 3 * (PI / 2) else a - PI / 2.
Proof.
  intros H. unfold turn in *. pose proof PI_RGT_0.
  destruct (Rlt_dec a (PI / 2)).
  - rewrite Rmod_neg; lra.
  - rewrite Rmod_small; lra.
Qed.

(** Reversal of the winding: [(-a) % (2 pi)]. *)
Lemma winding_flip a :
  0 <= a < turn ->
  Exact.Rmod (- a) turn = if Req_dec_T a 0 then 0 else turn - a.
Proof.
  intros H. pose proof turn_pos.
  destruct (Req_dec_T a 0) as [->|Hn].
  - rewrite Ropp_0. apply Rmod_small. lra.
  - rewrite Rmod_neg; lra.
Qed.

Lemma Rbij_shift : Rbij (fun a => Exact.Rmod (a - PI / 2) turn).
Proof.
  pose proof PI_RGT_0 as Hpi. repeat split.
  - apply Rmod_range, turn_pos.
  - apply Rmod_range, turn_pos.
  - intros a b Ha Hb. rewrite !quarter_shift by auto. unfold turn in *.
    destruct (Rlt_dec a (PI / 2)), (Rlt_dec b (PI / 2)); lra.
  - intros y Hy. unfold turn in Hy.
    destruct (Rlt_dec y (3 * (PI / 2))).
    + exists (y + PI / 2). unfold turn. split; [lra|].
      rewrite quarter_shift by (unfold turn; lra).
      destruct (Rlt_dec (y + PI / 2) (PI / 2)); lra.
    + exists (y - 3 * (PI / 2)). unfold turn. split; [lra|].
      rewrite quarter_shift by (unfold turn; lra).
      destruct (Rlt_dec (y - 3 * (PI / 2)) (PI / 2)); lra.
Qed.

Lemma Rbij_flip : Rbij (fun a => Exact.Rmod (- a) turn).
Proof.
  pose proof turn_pos as Ht. repeat split.
  - apply Rmod_range, turn_pos.
  - apply Rmod_range, turn_pos.
  - intros a b Ha Hb. rewrite !winding_flip by auto.
    destruct (Req_dec_T a 0), (Req_dec_T b 0); lra.
  - intros y Hy. destruct (Req_dec_T y 0) as [->|Hn].
    + exists 0. split; [lra|]. rewrite winding_flip by lra.
      destruct (Req_dec_T 0 0); lra.
    + exists (turn - y). split; [lra|]. rewrite winding_flip by lra.
      destruct (Req_dec_T (turn - y) 0); lra.
Qed.

Lemma exact_in_turn (a : R) : in_turn a <-> 0 <= a < turn.
Proof.
  unfold in_turn, fzero, two_pi, turn. simpl.
  rewrite Rleb_true, Rltb_true. tauto.
Qed.

Lemma exact_orient (o : Options R) (a : R) :
  0 <= a < turn ->
  orient o a
  = (fun x => if clockwise o then Exact.Rmod (- x) turn else x)
      ((fun x => if start_at_12 o then Exact.Rmod (x - PI / 2) turn else x) a).
Proof.
  intros Ha. unfold orient, fzero, two_pi, turn. simpl.
  assert (E : Exact.Rltb a 0 = false) by (apply Rltb_false; lra).
  rewrite E. reflexivity.
Qed.

End ExactOrient.

(** C3, as stated, fails in binary64 for three of the four combinations:
    the rounded [%] returns [2 pi] itself, outside [0, 2 pi).
    - defaults (both flags set): [a] just above [pi/2];
    - [start_at_12] only: [a] just below [pi/2];
    - [clockwise] only: [a = 2^-1000]. *)
Lemma orient_not_bijective_binary64 :
  let flags (s c : bool) : Options float :=
    mkOptions 12 0%float s c 4 (lit 24 10) (Some default_border) (lit 45 100)
              [] true Percent 4 [] in
  ~ orient_bijective (flags true true)
  /\ ~ orient_bijective (flags true false)
  /\ ~ orient_bijective (flags false true).
Proof.
  intros flags.
  assert (K : forall o a, in_turn a -> @orient float _ o a = two_pi ->
                          ~ orient_bijective o).
  { intros o a Ha E (Hinto & _). destruct (Hinto a Ha) as [_ H].
    rewrite E in H. vm_compute in H. discriminate. }
  split; [|split].
  - apply (K _ 0x1.921fb54442d19p+0%float); [split|]; vm_compute; reflexivity.
  - apply (K _ 0x1.921fb54442d17p+0%float); [split|]; vm_compute; reflexivity.
  - apply (K _ 0x1p-1000%float); [split|]; vm_compute; reflexivity.
Qed.

(** ** The comparison law in both arithmetics *)

#[global] Instance exact_order : PyFloatOrder R.
Proof.
  constructor. intros a b. simpl. unfold Exact.Reqb, Exact.Rleb.
  destruct (Req_dec_T a b), (Rle_dec a b); auto; try discriminate. lra.
Qed.

#[global] Instance binary64_order : PyFloatOrder float.
Proof.
  constructor. intros a b. simpl.
  rewrite FloatAxioms.eqb_spec, FloatAxioms.leb_spec.
  unfold SFeqb, SFleb. destruct (SFcompare _ _) as [[]|]; auto.
Qed.

Lemma validated_total_nonzero {F : Type} {PF : PyFloat F} {FO : PyFloatOrder F}
    labels counts :
  validated labels counts -> feq (total_of counts) fzero = false.
Proof.
  intros (_ & _ & _ & H). destruct (feq (total_of counts) fzero) eqn:E; auto.
  apply feq_fle in E. congruence.
Qed.

(** ** Wedges in exact arithmetic *)

Section ExactWedges.

Local Open Scope R_scope.

Lemma fold_add_acc l : forall a, fold_left Z.add l a = (a + zsum l)%Z.
Proof.
  unfold zsum. induction l as [|y l IH]; intros a; simpl; [lia|].
  rewrite (IH (a + y)%Z), (IH y). lia.
Qed.

Lemma zsum_cons x l : zsum (x :: l) = (x + zsum l)%Z.
Proof. unfold zsum at 1. simpl. apply fold_add_acc. Qed.

Variables (glyphs : list pychar) (total : R).
Hypothesis total_pos : 0 < total.





End ExactWedges.

Lemma exact_validated_total labels counts :
  @validated R _ labels counts -> (0 < IZR (zsum counts))%R.
Proof.
  intros (_ & _ & _ & H). unfold total_of, fzero in H. simpl in H.
  now apply Rleb_false in H.
Qed.





(** ** What binary64 keeps of the exact statements *)

Lemma digits2_iter_xO (k : positive) : forall m,
  Zpos (digits2_pos (Pos.iter xO m k)) = Zpos (digits2_pos m) + Zpos k.
Proof.
  induction k using Pos.peano_ind; intros m.
  - simpl. lia.
  - rewrite Pos.iter_succ. simpl digits2_pos. rewrite Pos2Z.inj_succ, IHk. lia.
Qed.

(** A 53-bit mantissa is not rounded. *)
Lemma round_aux_exact sx mz ez :
  Zpos (digits2_pos mz) = 53 -> -1074 <= ez <= 971 ->
  binary_round_aux prec emax sx (Zpos mz) ez loc_Exact = S754_finite sx mz ez.
Proof.
  intros Hd He.
  assert (Hf : fexp prec emax (Zdigits2 (Zpos mz) + ez) - ez = 0).
  { unfold fexp, SpecFloat.emin. simpl Zdigits2. rewrite Hd.
    change prec with 53. change emax with 1024. lia. }
  unfold binary_round_aux, shr_fexp. rewrite Hf. simpl shr.
  cbn [shr_record_of_loc shr_m loc_of_shr_record round_nearest_even].
  rewrite Hf. simpl shr. cbn [shr_record_of_loc shr_m].
  destruct (Z.leb_spec ez (emax - prec)) as [H|H]; auto.
  change (emax - prec) with 971 in H. lia.
Qed.

(** [iter_pos] as an iteration over [nat]. *)
Lemma iter_pos_nat {A} (f : A -> A) (k : positive) : forall x,
  iter_pos f k x = Nat.iter (Pos.to_nat k) f x.
Proof.
  induction k as [k IH|k IH|]; intros x; simpl iter_pos.
  - rewrite !IH, Pos2Nat.inj_xI.
    replace (S (2 * Pos.to_nat k)) with (Pos.to_nat k + (Pos.to_nat k + 1))%nat by lia.
    rewrite !Nat.iter_add. simpl. reflexivity.
  - rewrite !IH, Pos2Nat.inj_xO.
    replace (2 * Pos.to_nat k)%nat with (Pos.to_nat k + Pos.to_nat k)%nat by lia.
    rewrite Nat.iter_add. reflexivity.
  - reflexivity.
Qed.

(** One shift removes one digit of a mantissa of at least two digits. *)
Lemma shr_1_digits mrs q :
  shr_m mrs = Zpos q -> 1 < Zpos (digits2_pos q) ->
  exists q', shr_m (shr_1 mrs) = Zpos q'
             /\ Zpos (digits2_pos q') = Zpos (digits2_pos q) - 1.
Proof.
  destruct mrs as [m r s]. cbn [shr_m]. intros -> Hd.
  destruct q as [q|q|]; cbn [shr_1 shr_m digits2_pos] in *.
  - exists q. split; auto. change (PosDef.Pos.succ (digits2_pos q)) with (Pos.succ (digits2_pos q)). lia.
  - exists q. split; auto. change (PosDef.Pos.succ (digits2_pos q)) with (Pos.succ (digits2_pos q)). lia.
  - lia.
Qed.

Lemma shr_iter_digits (n : nat) : forall mrs q,
  shr_m mrs = Zpos q -> Z.of_nat n < Zpos (digits2_pos q) ->
  exists q', shr_m (Nat.iter n shr_1 mrs) = Zpos q'
             /\ Zpos (digits2_pos q') = Zpos (digits2_pos q) - Z.of_nat n.
Proof.
  induction n as [|n IH]; intros mrs q Hm Hd.
  - exists q. simpl. split; auto; lia.
  - destruct (IH mrs q Hm ltac:(lia)) as (q1 & H1 & D1).
    destruct (shr_1_digits _ q1 H1 ltac:(lia)) as (q2 & H2 & D2).
    exists q2. simpl Nat.iter. split; auto; lia.
Qed.

Lemma digits2_succ q :
  digits2_pos (Pos.succ q) = digits2_pos q
  \/ digits2_pos (Pos.succ q) = Pos.succ (digits2_pos q).
Proof.
  induction q as [q IH|q IH|]; simpl; auto.
  destruct IH as [->| ->]; auto.
Qed.

Lemma digits2_lower (p : positive) : 2 ^ (Zpos (digits2_pos p) - 1) <= Zpos p.
Proof.
  induction p as [p IH|p IH|]; simpl digits2_pos; try rewrite Pos2Z.inj_succ.
  - replace (Z.succ (Zpos (digits2_pos p)) - 1)
      with (Z.succ (Zpos (digits2_pos p) - 1)) by lia.
    rewrite Z.pow_succ_r by lia. lia.
  - replace (Z.succ (Zpos (digits2_pos p)) - 1)
      with (Z.succ (Zpos (digits2_pos p) - 1)) by lia.
    rewrite Z.pow_succ_r by lia. lia.
  - simpl. lia.
Qed.

Lemma finite53_valid sx mz ez :
  Zpos (digits2_pos mz) = 53 -> -1074 <= ez <= 971 ->
  valid_binary (S754_finite sx mz ez) = true.
Proof.
  intros Hm He.
  unfold valid_binary, SpecFloat.valid_binary, bounded, canonical_mantissa,
    fexp, SpecFloat.emin.
  rewrite Hm. change prec with 53. change emax with 1024.
  apply andb_true_iff. split; [apply Z.eqb_eq|apply Z.leb_le]; lia.
Qed.

(** Rounding a positive integer gives a finite float of that sign with a
    mantissa of 53 digits, or, from [2^1023] on, possibly the infinity of
    that sign. *)
Lemma round_int sx p :
  (exists mz ez, binary_round prec emax sx p 0 = S754_finite sx mz ez
                 /\ Zpos (digits2_pos mz) = 53 /\ -1074 <= ez <= 971)
  \/ (binary_round prec emax sx p 0 = S754_infinity sx /\ 2 ^ 1023 <= Zpos p).
Proof.
  unfold binary_round.
  assert (Hf : fexp prec emax (Zpos (digits2_pos p) + 0) = Zpos (digits2_pos p) - 53).
  { unfold fexp, SpecFloat.emin. change prec with 53. change emax with 1024. lia. }
  assert (Hbig : 1024 <= Zpos (digits2_pos p) -> 2 ^ 1023 <= Zpos p).
  { intros H. pose proof (digits2_lower p).
    assert (2 ^ 1023 <= 2 ^ (Zpos (digits2_pos p) - 1))
      by (apply Z.pow_le_mono_r; lia).
    lia. }
  rewrite Hf. unfold shl_align.
  destruct (Zpos (digits2_pos p) - 53 - 0) as [|k|k] eqn:Ek.
  - left. exists p, 0. rewrite round_aux_exact by lia. repeat split; lia.
  - (* more than 53 digits: k are shifted out *)
    unfold binary_round_aux, shr_fexp.
    assert (Hf1 : fexp prec emax (Zdigits2 (Zpos p) + 0) - 0 = Zpos k).
    { unfold fexp, SpecFloat.emin. simpl Zdigits2.
      change prec with 53. change emax with 1024. lia. }
    rewrite Hf1. cbn [shr]. rewrite iter_pos_nat.
    destruct (shr_iter_digits (Pos.to_nat k)
                (shr_record_of_loc (Zpos p) loc_Exact) p eq_refl)
      as (m1 & Hm1 & Hd1); [lia|].
    set (mrs1 := Nat.iter (Pos.to_nat k) shr_1
                   (shr_record_of_loc (Zpos p) loc_Exact)) in *.
    rewrite Hm1.
    assert (Hd1' : Zpos (digits2_pos m1) = 53) by lia.
    assert (Hr : exists m2,
               round_nearest_even (Zpos m1) (loc_of_shr_record mrs1) = Zpos m2
               /\ (Zpos (digits2_pos m2) = 53 \/ Zpos (digits2_pos m2) = 54)).
    { assert (Hs : Zpos m1 + 1 = Zpos (Pos.succ m1)) by lia.
      assert (Hsd : Zpos (digits2_pos (Pos.succ m1)) = 53
                    \/ Zpos (digits2_pos (Pos.succ m1)) = 54).
      { destruct (digits2_succ m1) as [E|E]; rewrite E;
          [left; lia|right; rewrite Pos2Z.inj_succ; lia]. }
      unfold round_nearest_even.
      destruct (loc_of_shr_record mrs1) as [|[]]; try (exists m1; split; auto; fail).
      - destruct (Z.even (Zpos m1)); [exists m1; auto|].
        rewrite Hs. exists (Pos.succ m1). auto.
      - rewrite Hs. exists (Pos.succ m1). auto. }
    destruct Hr as (m2 & -> & [Hd2|Hd2]).
    + assert (Hf2 : fexp prec emax (Zdigits2 (Zpos m2) + (0 + Zpos k)) - (0 + Zpos k) = 0).
      { unfold fexp, SpecFloat.emin. simpl Zdigits2. rewrite Hd2.
        change prec with 53. change emax with 1024. lia. }
      rewrite Hf2. cbn [shr shr_record_of_loc shr_m].
      destruct (Z.leb_spec (0 + Zpos k) (emax - prec)) as [H|H];
        change (emax - prec) with 971 in H.
      * left. exists m2, (0 + Zpos k). repeat split; auto; lia.
      * right. split; [reflexivity|]. apply Hbig. lia.
    + assert (Hf2 : fexp prec emax (Zdigits2 (Zpos m2) + (0 + Zpos k)) - (0 + Zpos k) = 1).
      { unfold fexp, SpecFloat.emin. simpl Zdigits2. rewrite Hd2.
        change prec with 53. change emax with 1024. lia. }
      rewrite Hf2. cbn [shr iter_pos].
      destruct (shr_1_digits (shr_record_of_loc (Zpos m2) loc_Exact) m2 eq_refl
                  ltac:(lia)) as (m3 & -> & Hd3).
      destruct (Z.leb_spec (0 + Zpos k + 1) (emax - prec)) as [H|H];
        change (emax - prec) with 971 in H.
      * left. exists m3, (0 + Zpos k + 1). repeat split; auto; lia.
      * right. split; [reflexivity|]. apply Hbig. lia.
  - left. pose proof (digits2_iter_xO k p).
    exists (Pos.iter xO p k), (Zpos (digits2_pos p) - 53).
    rewrite round_aux_exact by lia. repeat split; lia.
Qed.

(** In binary64, [float(n) <= 0] exactly when [n <= 0]. *)
Lemma binary64_sign_law z : @fle float _ (of_int z) fzero = (z <=? 0).
Proof.
  unfold fzero. simpl. rewrite FloatAxioms.leb_spec.
  unfold Binary64.of_Z.
  change (Prim2SF (SF2Prim (binary_normalize prec emax 0 0 false)))
    with (S754_zero false).
  destruct z as [|p|p]; simpl binary_normalize.
  - reflexivity.
  - destruct (round_int false p) as [(mz & ez & -> & Hd & He)|[-> _]].
    + rewrite FloatAxioms.Prim2SF_SF2Prim by (now apply finite53_valid).
      reflexivity.
    + reflexivity.
  - destruct (round_int true p) as [(mz & ez & -> & Hd & He)|[-> _]].
    + rewrite FloatAxioms.Prim2SF_SF2Prim by (now apply finite53_valid).
      reflexivity.
    + reflexivity.
Qed.

(** [float(c)] for [0 <= c < 2^1023] is zero or a finite positive float. *)
Lemma binary64_of_int_cases c :
  0 <= c < 2 ^ 1023 ->
  Prim2SF (Binary64.of_Z c) = S754_zero false
  \/ exists m e, Prim2SF (Binary64.of_Z c) = S754_finite false m e
                 /\ Zpos (digits2_pos m) = 53.
Proof.
  intros Hc. unfold Binary64.of_Z.
  destruct c as [|p|p]; try lia; simpl binary_normalize.
  - left. reflexivity.
  - right.
    destruct (round_int false p) as [(mz & ez & -> & Hd & He)|[_ Hbig]]; [|lia].
    exists mz, ez. split; auto.
    apply FloatAxioms.Prim2SF_SF2Prim. now apply finite53_valid.
Qed.




(** *** Floats that are not NaN *)

Lemma shr_1_nonneg mrs : 0 <= shr_m mrs -> 0 <= shr_m (shr_1 mrs).
Proof.
  destruct mrs as [[|[p|p|]|p] r s]; cbn [shr_1 shr_m]; lia.
Qed.

Lemma shr_nonneg mrs e n : 0 <= shr_m mrs -> 0 <= shr_m (fst (shr mrs e n)).
Proof.
  intros H. destruct n as [|k|k]; cbn [shr fst]; auto.
  rewrite iter_pos_nat. induction (Pos.to_nat k) as [|n IH]; simpl; auto.
  now apply shr_1_nonneg.
Qed.

Lemma shr_fexp_nonneg m e l :
  0 <= m -> 0 <= shr_m (fst (shr_fexp prec emax m e l)).
Proof.
  intros H. unfold shr_fexp. apply shr_nonneg.
  destruct l as [|[]]; exact H.
Qed.

Lemma round_nearest_even_nonneg m l : 0 <= m -> 0 <= round_nearest_even m l.
Proof.
  intros H. unfold round_nearest_even.
  destruct l as [|[]]; try destruct (Z.even m); lia.
Qed.

(** Rounding a mantissa that is not negative, with the sign off, gives a
    float that is not NaN and not below zero. *)
Lemma round_aux_nonneg mx ex lx :
  0 <= mx -> nonneg_number (binary_round_aux prec emax false mx ex lx) = true.
Proof.
  intros H. unfold binary_round_aux.
  pose proof (shr_fexp_nonneg mx ex lx H) as H1.
  destruct (shr_fexp prec emax mx ex lx) as [mrs1 e1]. cbn [fst] in H1.
  pose proof (shr_fexp_nonneg _ e1 loc_Exact
                (round_nearest_even_nonneg _ (loc_of_shr_record mrs1) H1)) as H2.
  destruct (shr_fexp prec emax _ e1 loc_Exact) as [mrs2 e2]. cbn [fst] in H2.
  destruct (shr_m mrs2) as [|p|p]; try reflexivity; [|lia].
  destruct (e2 <=? emax - prec); reflexivity.
Qed.

Lemma SFmul_nonneg mx ex y :
  nonneg_number y = true ->
  nonneg_number (SFmul prec emax (S754_finite false mx ex) y) = true.
Proof.
  destruct y as [s|s| |s m e]; simpl; intros H; try exact H; try discriminate H.
  apply negb_true_iff in H. subst s. cbn [xorb]. now apply round_aux_nonneg.
Qed.

Lemma SFdiv_nonneg x my ey :
  match x with S754_zero _ | S754_finite false _ _ => True | _ => False end ->
  nonneg_number (SFdiv prec emax x (S754_finite false my ey)) = true.
Proof.
  destruct x as [s|s| |[] m e]; intros H; try contradiction; try reflexivity.
  unfold SFdiv, SFdiv_core_binary.
  set (m' := match _ - _ - _ with Z0 => Zpos m | Zpos _ => _ | Zneg _ => 0 end).
  assert (Hm : 0 <= m').
  { unfold m'. destruct (_ - _ - _); try lia. apply Z.shiftl_nonneg. lia. }
  pose proof (Z.div_pos m' (Zpos my) Hm ltac:(lia)) as Hq.
  unfold Z.div in Hq. destruct (Z.div_eucl m' (Zpos my)) as [q r].
  cbn [xorb]. now apply round_aux_nonneg.
Qed.

Lemma SFadd_nonneg x y :
  nonneg_number x = true -> nonneg_number y = true ->
  nonneg_number (SFadd prec emax x y) = true.
Proof.
  destruct x as [sx|sx| |sx mx ex], y as [sy|sy| |sy my ey]; simpl nonneg_number;
    intros Hx Hy; try discriminate; try apply negb_true_iff in Hx;
    try apply negb_true_iff in Hy; subst; try reflexivity.
  - destruct sx, sy; reflexivity.
  - unfold SFadd. cbn [cond_Zopp]. simpl Z.add.
    unfold binary_normalize, binary_round.
    destruct (shl_align _ _ _) as [mz ez]. now apply round_aux_nonneg.
Qed.

Lemma SFcompare_antisym x y :
  SFcompare y x = option_map CompOpp (SFcompare x y).
Proof.
  destruct x as [sx|sx| |sx mx ex], y as [sy|sy| |sy my ey]; simpl;
    try reflexivity; try (destruct sx; reflexivity); try (destruct sy; reflexivity);
    try (destruct sx, sy; reflexivity).
  pose proof (Pos.compare_cont_antisym mx my Eq) as Hm. cbn [CompOpp] in Hm.
  rewrite (Z.compare_antisym ey ex).
  destruct sx, sy; try reflexivity; f_equal; destruct (ey ?= ex); simpl;
    try reflexivity; rewrite <- Hm; auto using CompOpp_involutive.
Qed.



(** *** Wedge ends in binary64 *)

Lemma count_le_zsum (l : list Z) :
  Forall (fun c => 0 <= c) l -> forall c, In c l -> 0 <= c <= zsum l.
Proof.
  induction 1 as [|x l Hx Hl IH]; intros c Hin; [contradiction|].
  rewrite zsum_cons.
  assert (0 <= zsum l).
  { clear - Hl. induction Hl as [|y l Hy Hl IH]; [unfold zsum; simpl; lia|].
    rewrite zsum_cons. lia. }
  destruct Hin as [<-|Hin]; [lia|]. specialize (IH c Hin). lia.
Qed.

Lemma binary64_two_pi :
  Prim2SF (@two_pi float _) = S754_finite false 7074237752028440 (-50).
Proof. reflexivity. Qed.

(** With a finite positive total and values in [0, 2^1023), no wedge end is
    NaN or below zero. *)
Lemma binary64_ends glyphs total mt et items : forall i cum w,
  Prim2SF total = S754_finite false mt et ->
  (forall lab val, In (lab, val) items -> 0 <= val < 2 ^ 1023) ->
  nonneg_number (Prim2SF cum) = true ->
  In w (@build_wedges float _ glyphs total i cum items) ->
  nonneg_number (Prim2SF (w_a1 w)) = true.
Proof.
  induction items as [|[lab val] rest IH]; intros i cum w Ht Hv Hc Hin;
    [contradiction|].
  assert (Hfrac : nonneg_number
            (Prim2SF (if feq total fzero then fzero
                      else fdiv (of_int val) total)) = true).
  { destruct (feq total fzero); [reflexivity|].
    simpl. rewrite FloatAxioms.div_spec, Ht. unfold FloatAxioms.SF64div.
    apply SFdiv_nonneg.
    destruct (binary64_of_int_cases val (Hv lab val (or_introl eq_refl)))
      as [E|(m & e & E & _)]; rewrite E; exact I. }
  assert (Hend : nonneg_number
            (Prim2SF (fadd cum (fmul two_pi
                        (if feq total fzero then fzero
                         else fdiv (of_int val) total)))) = true).
  { set (frac := if feq total fzero then fzero else fdiv (of_int val) total) in *.
    change (nonneg_number
              (Prim2SF (PrimFloat.add cum (PrimFloat.mul two_pi frac))) = true).
    rewrite FloatAxioms.add_spec. unfold FloatAxioms.SF64add.
    apply SFadd_nonneg; [exact Hc|].
    rewrite FloatAxioms.mul_spec, binary64_two_pi.
    unfold FloatAxioms.SF64mul. now apply SFmul_nonneg. }
  cbn [build_wedges] in Hin. destruct Hin as [<-|Hin].
  - exact Hend.
  - apply (IH _ _ w Ht (fun lab' val' H' => Hv lab' val' (or_intror H')) Hend Hin).
Qed.





(** In binary64 a float that is [>= 0] is not [< 0]. *)
Lemma binary64_nonneg (a : float) :
  @fle float _ fzero a = true -> @flt float _ a fzero = false.
Proof.
  unfold fzero. simpl. rewrite FloatAxioms.leb_spec, FloatAxioms.ltb_spec.
  change (Prim2SF (Binary64.of_Z 0)) with (S754_zero false).
  unfold SFleb, SFltb, SFcompare.
  destruct (Prim2SF a) as [s|s| |s m e]; try destruct s; intros H;
    try discriminate H; reflexivity.
Qed.

(** With both flags off, [orient] leaves [0, 2 pi) alone, also in binary64. *)
Lemma orient_plain_binary64 (o : Options float) :
  start_at_12 o = false -> clockwise o = false -> orient_bijective o.
Proof.
  intros Hs Hc.
  assert (E : forall a, in_turn a -> orient o a = a).
  { intros a [Ha _]. unfold orient. rewrite Hs, Hc, (binary64_nonneg a Ha).
    reflexivity. }
  repeat split.
  - rewrite E by assumption. apply H.
  - rewrite E by assumption. apply H.
  - intros a b Ha Hb. now rewrite !E.
  - intros y Hy. exists y. split; auto.
Qed.

(** C3, as the code has it: in exact arithmetic [orient] is a bijection of
    [0, 2 pi) onto [0, 2 pi) for each of the four combinations of
    [start_at_12] and [clockwise]; in binary64 it is one when both flags
    are off. *)
Theorem orient_bijection :
  (forall o : Options R, orient_bijective o)
  /\ (forall o : Options float,
        start_at_12 o = false -> clockwise o = false -> orient_bijective o).
Proof.
  split.
  - intros o.
    { assert (B : Rbij (fun a =>
                (fun x => if clockwise o then Exact.Rmod (- x) turn else x)
                  ((fun x => if start_at_12 o then Exact.Rmod (x - PI / 2) turn else x) a))).
      { apply (Rbij_compose
                 (fun x => if start_at_12 o then Exact.Rmod (x - PI / 2) turn else x)
                 (fun x => if clockwise o then Exact.Rmod (- x) turn else x)).
        - destruct (start_at_12 o); [apply Rbij_shift|apply Rbij_id].
        - destruct (clockwise o); [apply Rbij_flip|apply Rbij_id]. }
      destruct B as (B1 & B2 & B3). repeat split.
      - apply exact_in_turn. apply exact_in_turn in H.
        rewrite exact_orient by auto. apply B1, H.
      - apply exact_in_turn. apply exact_in_turn in H.
        rewrite exact_orient by auto. apply B1, H.
      - intros a b Ha Hb. apply exact_in_turn in Ha, Hb.
        rewrite !exact_orient by auto. now apply B2.
      - intros y Hy. apply exact_in_turn in Hy.
        destruct (B3 y Hy) as (a & Ha & E). exists a. split.
        + now apply exact_in_turn.
        + now rewrite exact_orient. }
  - apply orient_plain_binary64.
Qed.

Lemma orient_bijection_witness :
  orient_bijective
    (mkOptions 12 fzero false false 4 (lit 24 10) (Some default_border)
       (lit 45 100) [] true Percent 4 [] : Options float).
Proof. apply (proj2 orient_bijection); reflexivity. Defined.


(** ** Validation and assembly *)











(** ** A single wedge *)

Section SingleWedge.

Context {F : Type} {PF : PyFloat F}.
Variables (o : Options F) (w : Wedge F).



Lemma majority_in gs : gs <> [] -> In (majority (tally_votes gs [])) gs.
Proof.
  intros H. destruct (majority_spec gs H) as (pre & post & E & _).
  rewrite E at 2. apply in_or_app. right. now left.
Qed.



End SingleWedge.


Lemma scenario_raster_eq :
  rasterize scenario_options (wedges_of scenario_options [py "A"] [10])
  = scenario_raster.
Proof. vm_compute. reflexivity. Qed.





(** ** The scenario as a witness *)


Lemma label_overlay_keeps_outside_span_witness :
  let ws := wedges_of scenario_options [py "A"] [10] in
  nth_error (nth 0 (place_labels scenario_options ws (rasterize scenario_options ws)) []) 0
  = nth_error (nth 0 (rasterize scenario_options ws) []) 0.
Proof.
  apply (label_overlay_keeps_outside_span scenario_options [py "A"] [10] 0 0).
  rewrite scenario_raster_eq. left. intros k ch Hk Hn.
  assert (k = 0)%nat by lia. subst k. injection Hn as <-. reflexivity.
Defined.

Lemma raster_dimensions_witness :
  Z.of_nat (length (rasterize scenario_options
                      (wedges_of scenario_options [py "A"] [10]))) = 9.
Proof.
  refine (proj1 (raster_dimensions scenario_options [py "A"] [10] _)).
  simpl. lia.
Defined.


(** ** The binary64 renderer at work *)

Example binary64_literals :
  @lit float _ 24 10 = 0x1.3333333333333p+1%float
  /\ @lit float _ 1 1000000 = 0x1.0c6f7a0b5ed8dp-20%float
  /\ @lit float _ 45 100 = 0x1.ccccccccccccdp-2%float
  /\ @lit float _ 99 100 = 0x1.fae147ae147aep-1%float
  /\ @two_pi float _ = 0x1.921fb54442d18p+2%float.
Proof. repeat split; vm_compute; reflexivity. Qed.

Example binary64_modulo :
  Binary64.py_mod (-7.5)%float two_pi = 0x1.443f6a8885a30p+2%float
  /\ Binary64.py_mod 17.5%float two_pi = 0x1.3bc095777a5d0p+2%float
  /\ Binary64.py_mod (-0x1p-1000)%float two_pi = two_pi
  /\ Binary64.py_mod (-0)%float two_pi = 0%float.
Proof. repeat split; vm_compute; reflexivity. Qed.

Example binary64_atan2 :
  Binary64.math_atan2 1%float 1%float = 0x1.921fb54442d18p-1%float
  /\ Binary64.math_atan2 1%float (-1)%float = 0x1.2d97c7f3321d2p+1%float
  /\ Binary64.math_atan2 (-0.125)%float 0x1.d99999999999ap+1%float
     = (-0x1.14a6cb2510c41p-5)%float
  /\ Binary64.math_hypot 3%float 4%float = 5%float.
Proof. repeat split; vm_compute; reflexivity. Qed.

Example binary64_format :
  Binary64.format_1f 0.25%float = py "0.2"
  /\ Binary64.format_1f 0x1.6666666666666p-2%float = py "0.3"
  /\ Binary64.format_1f 0x1.8fccccccccccdp+6%float = py "100.0"
  /\ Binary64.format_1f (-0x1.47ae147ae147bp-5)%float = py "-0.0"
  /\ str_of_int (-12) = py "-12".
Proof. repeat split; vm_compute; reflexivity. Qed.

(** Two wedges on a 5x5 grid: the larger wedge is labelled first, above
    the centre and flush left; the smaller one below it, flush right. *)
Example two_wedge_chart :
  pie (with_radius 2 (@defaults float _)) [py "A"; py "B"] [1; 3]
  = join [newline]
      [py "·░░░·";
       py "· B ·";
       py "·░░░·";
       py "· A ·";
       py "·░░█·";
       py "█ A 1 (25.0%) | ░ B 3 (75.0%)"].
Proof. vm_compute. reflexivity. Qed.

(** * Further properties of the renderer *)

(** ** The characters of the raster *)

Lemma glyph_at_in glyphs k : glyphs <> [] -> In (glyph_at glyphs k) glyphs.
Proof.
  intros H. unfold glyph_at. apply nth_In.
  apply Nat.mod_upper_bound. destruct glyphs; [congruence|discriminate].
Qed.

Lemma glyphs_of_nonempty cs : glyphs_of cs <> [].
Proof. destruct cs; discriminate. Qed.

Lemma build_wedges_glyphs_in {F} {PF : PyFloat F} glyphs total items :
  forall i cum w, glyphs <> [] ->
  In w (build_wedges glyphs total i cum items) -> In (w_ch w) glyphs.
Proof.
  intros i cum w Hg Hin. apply In_nth_error in Hin as [k Hk].
  rewrite (build_wedges_glyph _ _ _ _ _ _ _ Hk). now apply glyph_at_in.
Qed.

Lemma wedge_char_cases {F} {PF : PyFloat F} (ws : list (Wedge F)) x :
  wedge_char ws x = space \/ In (wedge_char ws x) (map w_ch ws).
Proof.
  induction ws as [|w ws IH]; simpl; auto.
  destruct (wedge_matches w _ x); auto. destruct IH; auto.
Qed.

Lemma cell_cases {F} {PF : PyFloat F} (o : Options F) ws i j :
  cell o ws i j = space \/ Some (cell o ws i j) = border o
  \/ In (cell o ws i j) (map w_ch ws).
Proof.
  unfold cell, resolve. rewrite tally_cell_spec. cbn [inside votes border_vote].
  destruct (Z.eqb_spec (Z.of_nat (length (glyphs_voted o ws i j))) 0) as [E|E];
    auto.
  assert (Hne : glyphs_voted o ws i j <> []).
  { intros E'. rewrite E' in E. simpl in E. lia. }
  pose proof (majority_in _ Hne) as Hm.
  assert (Hg : majority (tally_votes (glyphs_voted o ws i j) []) = space
               \/ In (majority (tally_votes (glyphs_voted o ws i j) []))
                     (map w_ch ws)).
  { unfold glyphs_voted in Hm at 2. apply in_map_iff in Hm as (d & <- & _).
    apply wedge_char_cases. }
  destruct (border o) as [b|]; [|tauto].
  destruct (_ <? _); [auto|tauto].
Qed.

(** X1: every character of the rasterized grid is a blank, the border
    glyph, or a glyph of the palette in use (the ten default glyphs when
    [chars] is not given). *)
Theorem raster_alphabet {F : Type} {PF : PyFloat F}
    (o : Options F) (labels : list pystr) (counts : list Z) :
  Forall (Forall (fun ch => ch = space \/ Some ch = border o
                            \/ In ch (glyphs_of (chars o))))
    (rasterize o (wedges_of o labels counts)).
Proof.
  apply Forall_forall. intros row Hrow. apply Forall_forall. intros ch Hch.
  unfold rasterize in Hrow. apply in_map_iff in Hrow as (j & <- & _).
  unfold raster_row in Hch. apply in_map_iff in Hch as (i & <- & _).
  destruct (cell_cases o (wedges_of o labels counts) i j) as [H|[H|H]]; auto.
  right. right. apply in_map_iff in H as (w & <- & Hw).
  apply (build_wedges_glyphs_in _ _ _ _ _ _ (glyphs_of_nonempty _) Hw).
Qed.

(** ** The counters of a cell *)

Lemma vote_total_vote g vs : vote_total (vote g vs) = vote_total vs + 1.
Proof.
  unfold vote_total. induction vs as [|[c n] vs IH]; simpl; [lia|].
  destruct (c =? g)%N; simpl; lia.
Qed.

Lemma vote_total_tally gs : forall vs,
  vote_total (tally_votes gs vs) = vote_total vs + Z.of_nat (length gs).
Proof.
  induction gs as [|g gs IH]; intros vs; simpl; [lia|].
  unfold tally_votes in *. simpl. rewrite IH, vote_total_vote. lia.
Qed.

Lemma vote_positive g vs :
  Forall (fun kv => 0 < snd kv) vs -> Forall (fun kv => 0 < snd kv) (vote g vs).
Proof.
  induction 1 as [|[c n] vs Hc Hvs IH]; simpl.
  - repeat constructor.
  - destruct (c =? g)%N; constructor; simpl in *; auto; lia.
Qed.

Lemma tally_positive gs : forall vs,
  Forall (fun kv => 0 < snd kv) vs ->
  Forall (fun kv => 0 < snd kv) (tally_votes gs vs).
Proof.
  induction gs as [|g gs IH]; intros vs H; simpl; auto.
  apply IH. now apply vote_positive.
Qed.

Lemma filter_length_le {A} (f : A -> bool) l : (length (filter f l) <= length l)%nat.
Proof. induction l as [|x l IH]; simpl; [lia|destruct (f x); simpl; lia]. Qed.

Lemma offsets_length {F} {PF : PyFloat F} (o : Options F) :
  length (offsets o) = Z.to_nat (samples o).
Proof. unfold offsets. rewrite length_map, range_length. f_equal. lia. Qed.

(** X2: the three counters of a cell after its samples are taken.  The
    dictionary of votes has one entry per glyph, each with a positive
    count; the counts add up to [inside]; the border votes are at most
    [inside]; and [inside] is at most [samples * samples]. *)
Theorem tally_invariants {F : Type} {PF : PyFloat F}
    (o : Options F) (ws : list (Wedge F)) (i j : Z) :
  let t := tally_cell o ws i j in
  NoDup (keys (votes t))
  /\ Forall (fun kv => 0 < snd kv) (votes t)
  /\ vote_total (votes t) = inside t
  /\ 0 <= border_vote t <= inside t
  /\ inside t <= Z.max 0 (samples o) * Z.max 0 (samples o).
Proof.
  intros t. unfold t. rewrite tally_cell_spec. cbn [votes border_vote inside].
  split; [|split; [|split; [|split]]].
  - apply nodup_tally_votes. constructor.
  - apply tally_positive. constructor.
  - rewrite vote_total_tally. unfold vote_total. simpl. lia.
  - unfold border_votes, glyphs_voted. rewrite length_map.
    pose proof (filter_length_le
                  (fun d => near_border o (sample_r o i j (fst d) (snd d)))
                  (inside_samples o i j)). lia.
  - unfold glyphs_voted. rewrite length_map. unfold inside_samples.
    pose proof (filter_length_le
                  (fun d => negb (discarded o (sample_r o i j (fst d) (snd d))))
                  (scan o)) as H.
    unfold scan in H. rewrite length_prod, offsets_length in H.
    assert (E : Z.of_nat (Z.to_nat (samples o)) = Z.max 0 (samples o)) by lia.
    rewrite Nat2Z.inj_le, Nat2Z.inj_mul, E in H. exact H.
Qed.

Lemma range_empty lo hi : hi <= lo -> range lo hi = [].
Proof.
  intros H. unfold range. replace (Z.to_nat (hi - lo)) with 0%nat by lia.
  reflexivity.
Qed.

Lemma map_const_repeat {A B} (c : B) (l : list A) :
  map (fun _ => c) l = repeat c (length l).
Proof. induction l as [|x l IH]; simpl; [|rewrite IH]; reflexivity. Qed.

Lemma set_at_same {A} n (x : A) l : nth_error l n = Some x -> set_at n x l = l.
Proof.
  revert n; induction l as [|y l IH]; intros [|n] H; simpl in *;
    try discriminate; auto.
  - now injection H as ->.
  - f_equal. now apply IH.
Qed.

Lemma place_row_blank row text align :
  (forall ch, In ch row -> ch = space) -> place_row row text align = row.
Proof.
  intros H. unfold place_row. now rewrite (first_nonblank_blank row 0 H).
Qed.

Lemma place_blank (lines : list pystr) row_idx text align :
  (forall row, In row lines -> forall ch, In ch row -> ch = space) ->
  place lines row_idx text align = lines.
Proof.
  intros H. unfold place.
  destruct (nth_error lines (Z.to_nat row_idx)) as [row|] eqn:E; auto.
  rewrite place_row_blank by (apply H; eapply nth_error_In; eauto).
  now apply set_at_same.
Qed.

Lemma place_labels_blank {F} {PF : PyFloat F} (o : Options F) ws
    (lines : list pystr) :
  (forall row, In row lines -> forall ch, In ch row -> ch = space) ->
  place_labels o ws lines = lines.
Proof.
  intros H. unfold place_labels. destruct (_ || _); auto.
  generalize (combine (take (label_max o) (sorted_desc ws))
                (map (target (Z.of_nat (length lines)))
                   (range 0 (Z.of_nat (length (take (label_max o) (sorted_desc ws))))))).
  intros wts. induction wts as [|[w [ri al]] wts IH]; simpl; auto.
  now rewrite place_blank.
Qed.

Lemma blank_grid_blank n row ch : In row (blank_grid n) -> In ch row -> ch = space.
Proof.
  intros Hr Hc. apply repeat_spec in Hr. subst row. now apply repeat_spec in Hc.
Qed.

Lemma rasterize_blank {F} {PF : PyFloat F} (o : Options F) ws :
  (forall i j, cell o ws i j = space) ->
  rasterize o ws = blank_grid (Z.to_nat (2 * radius o + 1)).
Proof.
  intros H. unfold rasterize, raster_row, blank_grid.
  rewrite (map_ext _ (fun _ => repeat space (Z.to_nat (2 * radius o + 1)))).
  - rewrite map_const_repeat, range_length. do 2 f_equal. lia.
  - intros j. rewrite (map_ext _ (fun _ => space)) by (intros; apply H).
    rewrite map_const_repeat, range_length. do 2 f_equal. lia.
Qed.

Lemma no_offsets_blank {F} {PF : PyFloat F} (o : Options F) ws i j :
  offsets o = [] -> cell o ws i j = space.
Proof.
  intros H. unfold cell, tally_cell, scan. rewrite H. reflexivity.
Qed.

(** X3: with [samples <= 0] (other than [-1], for which Python divides by
    zero) and a radius that is not negative, no sample is taken: the rasterized grid is entirely blank, and
    since a blank row takes no label, so is the body of the chart. *)
Theorem no_samples_blank_chart {F : Type} {PF : PyFloat F}
    (o : Options F) (labels : list pystr) (counts : list Z) :
  0 <= radius o -> samples o <= 0 -> samples o <> -1 ->
  let ws := wedges_of o labels counts in
  rasterize o ws = blank_grid (Z.to_nat (2 * radius o + 1))
  /\ place_labels o ws (rasterize o ws) = blank_grid (Z.to_nat (2 * radius o + 1)).
Proof.
  intros _ Hs _ ws.
  assert (E : rasterize o ws = blank_grid (Z.to_nat (2 * radius o + 1))).
  { apply rasterize_blank. intros i j. apply no_offsets_blank.
    unfold offsets. now rewrite range_empty. }
  split; [exact E|]. rewrite E. apply place_labels_blank.
  intros row Hr ch Hc. eapply blank_grid_blank; eauto.
Qed.

Lemma no_samples_blank_chart_witness :
  let o : Options float :=
    mkOptions 2 fzero true true 0 (lit 24 10) (Some default_border)
              (lit 45 100) [] true Percent 4 [] in
  place_labels o (wedges_of o [py "A"] [10]) (rasterize o (wedges_of o [py "A"] [10]))
  = blank_grid 5.
Proof.
  intros o.
  refine (proj2 (no_samples_blank_chart o [py "A"] [10] _ _ _)); simpl; lia.
Defined.

(** X4: a cell all of whose samples lie beyond the outer radius
    ([r > radius + 1e-6]) is blank. *)
Theorem blank_beyond_radius {F : Type} {PF : PyFloat F}
    (o : Options F) (ws : list (Wedge F)) (i j : Z) :
  beyond_radius o i j = true -> cell o ws i j = space.
Proof.
  intros H. apply all_discarded_blank.
  unfold beyond_radius in H. rewrite forallb_forall in *.
  intros d Hd. unfold discarded. now rewrite (H d Hd).
Qed.

Lemma blank_beyond_radius_witness :
  cell scenario_options (wedges_of scenario_options [py "A"] [10]) 4 4 = space.
Proof.
  apply (blank_beyond_radius scenario_options). vm_compute. reflexivity.
Defined.

Lemma target_row_cases h k :
  3 <= h -> 0 <= k ->
  fst (target h k)
  = (if k mod 2 =? 0 then Z.max 0 (h / 2 - rank_offset k)
     else Z.min (h - 1) (h / 2 + rank_offset k))
  /\ 1 <= rank_offset k.
Proof.
  intros Hh Hk. unfold target, rank_offset. cbn [fst].
  assert (H2 : 0 <= k / 2) by (apply Z.div_pos; lia).
  assert (Hm : 1 <= h / 2) by (apply Z.div_le_lower_bound; lia).
  assert (Hu : h / 2 <= h - 2).
  { assert (2 * (h / 2) <= h) by (apply Z.mul_div_le; lia). lia. }
  set (off := (k / 2 + 1) * (if 2 <=? k then 2 else 1)).
  assert (Hoff : 1 <= off) by (unfold off; destruct (2 <=? k); nia).
  split; [|exact Hoff].
  destruct (k mod 2 =? 0); lia.
Qed.

(** X5: where the label of rank [k] goes, in a grid of at least three rows.
    The row is within the grid; a label of even rank goes above the middle
    row and is flush left, one of odd rank below it and flush right; only
    the top row (for even ranks) or the bottom row (for odd ranks) can
    clamp the offset [(k // 2 + 1) * (2 if k >= 2 else 1)]. *)
Theorem label_targets (h k : Z) :
  3 <= h -> 0 <= k ->
  let row := fst (target h k) in
  0 <= row <= h - 1
  /\ (k mod 2 = 0 ->
      row = Z.max 0 (h / 2 - rank_offset k) /\ row < h / 2
      /\ snd (target h k) = AlignLeft)
  /\ (k mod 2 = 1 ->
      row = Z.min (h - 1) (h / 2 + rank_offset k) /\ h / 2 < row
      /\ snd (target h k) = AlignRight).
Proof.
  intros Hh Hk row. unfold row.
  destruct (target_row_cases h k Hh Hk) as [E Hoff]. rewrite E.
  assert (Hm : 1 <= h / 2) by (apply Z.div_le_lower_bound; lia).
  assert (Hu : h / 2 <= h - 2).
  { assert (2 * (h / 2) <= h) by (apply Z.mul_div_le; lia). lia. }
  unfold target. cbn [snd].
  destruct (Z.eqb_spec (k mod 2) 0) as [E0|E0].
  - split; [lia|]. split; [intros _; repeat split; lia|lia].
  - split; [lia|]. split; [lia|intros _; repeat split; lia].
Qed.

Lemma label_targets_witness :
  fst (target 9 2) = 0 /\ snd (target 9 2) = AlignLeft.
Proof.
  destruct (label_targets 9 2 ltac:(lia) ltac:(lia)) as (_ & H & _).
  destruct (H eq_refl) as (E & _ & A). split; [exact E|exact A].
Defined.

(** *** Rows that take no label *)

Lemma place_other_row (lines : list pystr) row_idx text align n :
  0 <= row_idx -> Z.of_nat n <> row_idx ->
  nth n (place lines row_idx text align) [] = nth n lines [].
Proof.
  intros H0 Hn. unfold place.
  destruct (nth_error lines (Z.to_nat row_idx)) as [row|] eqn:E; auto.
  apply set_at_nth_other. lia.
Qed.

Lemma range_in lo hi k : In k (range lo hi) -> lo <= k < hi.
Proof.
  unfold range. intros H. apply in_map_iff in H as (n & <- & Hn).
  apply in_seq in Hn. lia.
Qed.

Lemma fold_place_other_row {F} {PF : PyFloat F} (o : Options F) wts n :
  forall lines : list pystr,
  Forall (fun wt => 0 <= fst (snd wt) /\ fst (snd wt) <> Z.of_nat n) wts ->
  nth n (fold_left (place_one o) wts lines) [] = nth n lines [].
Proof.
  induction wts as [|[w [ri al]] wts IH]; intros lines H; simpl; auto.
  inversion H as [|? ? [H0 Hne] Hrest]; subst. simpl in H0, Hne.
  rewrite IH by exact Hrest. apply place_other_row; auto.
Qed.

Lemma combine_targets_forall {A} (P : Z * Align -> Prop) (ws : list A) ts :
  Forall P ts -> Forall (fun wt => P (snd wt)) (combine ws ts).
Proof.
  intros H. revert ws. induction H as [|t ts Ht Hts IH]; intros [|w ws]; simpl;
    constructor; auto.
Qed.

(** X6: in a chart of radius at least 1 the middle row is the target of no
    rank, so it never takes a label: after label overlay it is the
    rasterized row as it was. *)
Theorem middle_row_keeps_raster {F : Type} {PF : PyFloat F}
    (o : Options F) (labels : list pystr) (counts : list Z) :
  1 <= radius o ->
  let ws := wedges_of o labels counts in
  nth (Z.to_nat (radius o)) (place_labels o ws (rasterize o ws)) []
  = nth (Z.to_nat (radius o)) (rasterize o ws) [].
Proof.
  intros Hr ws. unfold place_labels. destruct (_ || _); [reflexivity|].
  apply fold_place_other_row.
  apply (combine_targets_forall
           (fun t => 0 <= fst t /\ fst t <> Z.of_nat (Z.to_nat (radius o)))).
  apply Forall_forall. intros t Ht. apply in_map_iff in Ht as (k & <- & Hk).
  apply range_in in Hk. rewrite rasterize_length.
  assert (Hh : Z.of_nat (Z.to_nat (2 * radius o + 1)) = 2 * radius o + 1) by lia.
  rewrite Hh.
  destruct (target_row_cases (2 * radius o + 1) k ltac:(lia) ltac:(lia))
    as [E Hoff].
  rewrite E.
  assert (Hmid : (2 * radius o + 1) / 2 = radius o).
  { symmetry. apply (Z.div_unique _ _ _ 1); lia. }
  rewrite Hmid. destruct (k mod 2 =? 0); lia.
Qed.

Lemma middle_row_keeps_raster_witness :
  nth 4 (place_labels scenario_options (wedges_of scenario_options [py "A"] [10])
           (rasterize scenario_options (wedges_of scenario_options [py "A"] [10]))) []
  = nth 4 (rasterize scenario_options (wedges_of scenario_options [py "A"] [10])) [].
Proof.
  apply (middle_row_keeps_raster scenario_options [py "A"] [10]). simpl. lia.
Defined.

Lemma set_at_firstn {A} n (c : A) l :
  (n < length l)%nat -> firstn (S n) (set_at n c l) = firstn n l ++ [c].
Proof.
  revert n; induction l as [|x l IH]; intros [|n] H; simpl in *; try lia; auto.
  f_equal. apply IH. lia.
Qed.

Lemma set_at_skipn {A} n (c : A) l k :
  (n < k)%nat -> skipn k (set_at n c l) = skipn k l.
Proof.
  revert n k; induction l as [|x l IH]; intros [|n] [|k] H; simpl; try lia; auto.
  apply IH. lia.
Qed.

(** The loop of [place] writes [text] in one piece when it fits the row. *)
Lemma overwrite_splice text : forall (row : pystr) (col : nat),
  (col + length text <= length row)%nat ->
  overwrite row (Z.of_nat col) text
  = firstn col row ++ text ++ skipn (col + length text) row.
Proof.
  induction text as [|ch text IH]; intros row col H; simpl in *.
  - rewrite Nat.add_0_r. symmetry. apply firstn_skipn.
  - assert (E : (0 <=? Z.of_nat col) && (Z.of_nat col <? Z.of_nat (length row)) = true).
    { apply andb_true_iff. split; [apply Z.leb_le|apply Z.ltb_lt]; lia. }
    rewrite E, Nat2Z.id.
    replace (Z.of_nat col + 1) with (Z.of_nat (S col)) by lia.
    assert (Hc : (col < length row)%nat) by lia.
    rewrite IH by (rewrite set_at_length; simpl; rewrite plus_n_Sm; exact H).
    rewrite (set_at_firstn col ch row Hc).
    rewrite (set_at_skipn col ch row (S col + length text)) by lia.
    rewrite <- app_assoc. cbn [app].
    replace (S col + length text)%nat with (col + S (length text))%nat by lia.
    reflexivity.
Qed.

Lemma take_firstn (avail : Z) (full : pystr) :
  (if avail <? Z.of_nat (length full) then take (Z.max 0 avail) full else full)
  = firstn (Z.to_nat avail) full.
Proof.
  destruct (Z.ltb_spec avail (Z.of_nat (length full))) as [H|H].
  - unfold take. destruct (Z.leb_spec 0 (Z.max 0 avail)); [|lia].
    f_equal. lia.
  - symmetry. apply firstn_all2. lia.
Qed.

Lemma label_text_length avail text :
  Z.of_nat (length (label_text avail text)) <= Z.max 0 avail.
Proof. unfold label_text. rewrite length_firstn. lia. Qed.

(** Before the first non-blank column a row is blank. *)
Lemma first_nonblank_before row : forall k f,
  first_nonblank row k = Some f ->
  forall c ch, (c < f - k)%nat -> nth_error row c = Some ch -> ch = space.
Proof.
  induction row as [|x row IH]; intros k f H c ch Hc Hn; simpl in H;
    [discriminate|].
  destruct (N.eqb_spec x space) as [E|E].
  - destruct c as [|c]; simpl in Hn.
    + now injection Hn as <-.
    + eapply (IH (S k) f H c); eauto. lia.
  - injection H as <-. lia.
Qed.

(** The last non-blank column is not before the first one. *)
Lemma last_nonblank_bound row f :
  first_nonblank row 0 = Some f ->
  Z.of_nat f <= last_nonblank row < Z.of_nat (length row).
Proof.
  intros Hf. destruct (last_nonblank_spec _ _ Hf) as (l & ch & -> & Hn & Hc).
  assert (l < length row)%nat by (apply nth_error_Some; congruence).
  split; [|lia].
  destruct (Nat.le_gt_cases f l) as [|Hlt]; [lia|]. exfalso.
  apply Hc. eapply (first_nonblank_before row 0%nat f Hf l); eauto. lia.
Qed.

(** [place] as one call of its writing loop. *)
Lemma place_row_overwrite (row text : pystr) (align : Align) (f : nat) :
  first_nonblank row 0 = Some f ->
  Z.of_nat f < last_nonblank row ->
  let l := last_nonblank row in
  let txt := label_text (l - Z.of_nat f - 1) text in
  let start := label_start (Z.of_nat f) l txt align in
  place_row row text align = overwrite row start txt
  /\ Z.of_nat f < start /\ start + Z.of_nat (length txt) <= l.
Proof.
  intros Hf Hlt l txt start.
  pose proof (last_nonblank_bound row f Hf) as Hl. fold l in Hl, Hlt.
  pose proof (label_text_length (l - Z.of_nat f - 1) text) as Hlen. fold txt in Hlen.
  assert (Hc : 0 <= (l - Z.of_nat f - 1 - Z.of_nat (length txt)) / 2
               <= l - Z.of_nat f - 1 - Z.of_nat (length txt)).
  { split; [apply Z.div_pos; lia|apply Z.div_le_upper_bound; lia]. }
  assert (Hs : Z.of_nat f < start /\ start + Z.of_nat (length txt) <= l).
  { unfold start, label_start. destruct align; lia. }
  split; [|exact Hs].
  unfold place_row. rewrite Hf. fold l.
  destruct (Z.leb_spec l (Z.of_nat f)) as [H|_]; [lia|].
  replace (l - 1 - (Z.of_nat f + 1) + 1) with (l - Z.of_nat f - 1) by lia.
  rewrite take_firstn. fold (label_text (l - Z.of_nat f - 1) text). fold txt.
  f_equal. unfold start, label_start. destruct align; lia.
Qed.

(** X7: what [place] writes.  On a row whose first and last non-blank
    columns are [f < l], the label between two blanks, cut to the
    [l - f - 1] columns of the interior, replaces the characters from the
    start column on: column [f + 1] when flush left, the column that makes
    the text end at [l - 1] when flush right; the text lies strictly
    between [f] and [l], and the rest of the row is as before. *)
Theorem place_row_writes_label (row text : pystr) (align : Align) (f : nat) :
  first_nonblank row 0 = Some f ->
  Z.of_nat f < last_nonblank row ->
  let l := last_nonblank row in
  let txt := label_text (l - Z.of_nat f - 1) text in
  let start := Z.to_nat (label_start (Z.of_nat f) l txt align) in
  place_row row text align
  = firstn start row ++ txt ++ skipn (start + length txt) row
  /\ (f < start)%nat
  /\ Z.of_nat (start + length txt) <= l.
Proof.
  intros Hf Hlt l txt start.
  destruct (place_row_overwrite row text align f Hf Hlt) as (E & Hs & He).
  cbv zeta in E, Hs, He. fold l in E, Hs, He. fold txt in E, Hs, He.
  pose proof (last_nonblank_bound row f Hf) as Hl. fold l in Hl.
  split; [|unfold start; lia].
  rewrite E.
  replace (label_start (Z.of_nat f) l txt align) with (Z.of_nat start)
    by (unfold start; lia).
  apply overwrite_splice. unfold start. lia.
Qed.

Lemma place_row_writes_label_witness :
  place_row (py "·███████·") (py "A 100.0%") AlignLeft = py "· A 100.·".
Proof.
  exact (proj1 (place_row_writes_label (py "·███████·") (py "A 100.0%") AlignLeft
                  0%nat eq_refl eq_refl)).
Defined.

Lemma first_nonblank_intro row : forall k f ch,
  (forall c ch', (c < f)%nat -> nth_error row c = Some ch' -> ch' = space) ->
  nth_error row f = Some ch -> ch <> space ->
  first_nonblank row k = Some (k + f)%nat.
Proof.
  induction row as [|x row IH]; intros k f ch Hb Hn Hc.
  - destruct f; discriminate.
  - simpl. destruct f as [|f]; simpl in Hn.
    + injection Hn as ->. destruct (N.eqb_spec ch space); [contradiction|].
      now rewrite Nat.add_0_r.
    + rewrite (Hb 0%nat x (Nat.lt_0_succ f) eq_refl). simpl.
      rewrite (IH (S k) f ch
                 (fun c ch' Hlt Hn' =>
                    Hb (S c) ch' (proj1 (Nat.succ_lt_mono c f) Hlt) Hn') Hn Hc).
      now rewrite <- plus_n_Sm.
Qed.

(** The first non-blank column depends on the row up to that column only. *)
Lemma first_nonblank_ext (row row' : pystr) f :
  first_nonblank row 0 = Some f ->
  (forall c, (c <= f)%nat -> nth_error row' c = nth_error row c) ->
  first_nonblank row' 0 = Some f.
Proof.
  intros Hf Heq.
  destruct (first_nonblank_some _ _ _ Hf) as (_ & ch & Hn & Hc).
  rewrite Nat.sub_0_r in Hn.
  apply (first_nonblank_intro row' 0%nat f ch); auto.
  - intros c ch' Hlt Hn'. rewrite Heq in Hn' by lia.
    eapply (first_nonblank_before row 0%nat f Hf c); eauto. lia.
  - rewrite Heq by lia. exact Hn.
Qed.

Lemma last_nonblank_ext (row row' : pystr) f :
  first_nonblank row 0 = Some f ->
  length row' = length row ->
  (forall c, last_nonblank row <= Z.of_nat c -> nth_error row' c = nth_error row c) ->
  last_nonblank row' = last_nonblank row.
Proof.
  intros Hf Hlen Heq.
  pose proof (last_nonblank_bound row f Hf) as Hb.
  unfold last_nonblank in *. rewrite Hlen.
  destruct (first_nonblank (rev row) 0) as [g|] eqn:Hg.
  - rewrite (first_nonblank_ext (rev row) (rev row') g Hg); auto.
    intros c Hc. rewrite !nth_error_rev, Hlen.
    destruct (Nat.ltb_spec c (length row)); auto.
    apply Heq. lia.
  - exfalso. destruct (first_nonblank_some _ _ _ Hf) as (_ & ch & Hn & Hc).
    apply Hc. eapply first_nonblank_none; eauto.
    apply -> in_rev. eapply nth_error_In; eauto.
Qed.

Lemma same_ends_refl row : same_ends row row.
Proof. repeat split. Qed.

Lemma same_ends_trans r1 r2 r3 : same_ends r1 r2 -> same_ends r2 r3 -> same_ends r1 r3.
Proof.
  intros (F1 & L1 & C1) (F2 & L2 & C2). split; [congruence|split; [congruence|]].
  intros f Hf. destruct (C1 f Hf) as [A1 B1].
  rewrite <- F1 in Hf. destruct (C2 f Hf) as [A2 B2].
  rewrite L1 in B2. split; congruence.
Qed.

Lemma place_row_same_ends row text align : same_ends row (place_row row text align).
Proof.
  destruct (first_nonblank row 0) as [f|] eqn:Hf.
  - destruct (Z.ltb_spec (Z.of_nat f) (last_nonblank row)) as [Hlt|Hge].
    + destruct (place_row_overwrite row text align f Hf Hlt) as (E & Hs & He).
      cbv zeta in E, Hs, He. rewrite E.
      pose proof (last_nonblank_bound row f Hf) as Hb.
      set (txt := label_text _ _) in *. set (start := label_start _ _ _ _) in *.
      assert (Hfr : forall c, (c <= f)%nat \/ last_nonblank row <= Z.of_nat c ->
                nth_error (overwrite row start txt) c = nth_error row c).
      { intros c Hc. apply overwrite_frame. lia. }
      split; [|split].
      * rewrite Hf. apply (first_nonblank_ext row _ f Hf). intros; apply Hfr; lia.
      * apply (last_nonblank_ext row _ f Hf); [apply overwrite_length|].
        intros; apply Hfr; lia.
      * intros f' Hf'. rewrite Hf in Hf'. injection Hf' as <-.
        split; apply Hfr; lia.
    + assert (E : place_row row text align = row).
      { unfold place_row. rewrite Hf.
        destruct (Z.leb_spec (last_nonblank row) (Z.of_nat f)); [reflexivity|lia]. }
      rewrite E. apply same_ends_refl.
  - assert (E : place_row row text align = row)
      by (unfold place_row; now rewrite Hf).
    rewrite E. apply same_ends_refl.
Qed.

Lemma place_same_ends (lines : list pystr) row_idx text align r :
  same_ends (nth r lines []) (nth r (place lines row_idx text align) []).
Proof.
  destruct (place_nth lines row_idx text align r) as [->| ->].
  - apply same_ends_refl.
  - apply place_row_same_ends.
Qed.

Lemma fold_place_same_ends {F} {PF : PyFloat F} (o : Options F) wts r :
  forall lines : list pystr,
  same_ends (nth r lines []) (nth r (fold_left (place_one o) wts lines) []).
Proof.
  induction wts as [|[w [ri al]] wts IH]; intros lines; simpl.
  - apply same_ends_refl.
  - eapply same_ends_trans; [|apply IH]. apply place_same_ends.
Qed.

(** X8: label overlay keeps the two ends of every row.  In each row of the
    body the first and the last non-blank column are where the rasterizer
    put them and hold the characters it put there: labels are written
    strictly between them, however many labels land on the row. *)
Theorem label_overlay_keeps_row_ends {F : Type} {PF : PyFloat F}
    (o : Options F) (labels : list pystr) (counts : list Z) (r : nat) :
  let ws := wedges_of o labels counts in
  same_ends (nth r (rasterize o ws) [])
            (nth r (place_labels o ws (rasterize o ws)) []).
Proof.
  intros ws. unfold place_labels. destruct (_ || _).
  - apply same_ends_refl.
  - apply fold_place_same_ends.
Qed.

Section Ranking.

Context {F : Type} {PF : PyFloat F}.

Lemma insert_desc_perm (w : Wedge F) l : Permutation (w :: l) (insert_desc w l).
Proof.
  induction l as [|y l IH]; simpl; auto.
  destruct (flt (w_frac y) (w_frac w)); auto.
  eapply perm_trans; [apply perm_swap|]. now constructor.
Qed.

Lemma fold_insert_perm (ws : list (Wedge F)) : forall acc,
  Permutation (acc ++ ws) (fold_left (fun acc w => insert_desc w acc) ws acc).
Proof.
  induction ws as [|w ws IH]; intros acc; simpl.
  - now rewrite app_nil_r.
  - eapply perm_trans; [|apply IH].
    eapply perm_trans; [apply Permutation_sym, Permutation_middle|].
    apply (Permutation_app_tail ws (insert_desc_perm w acc)).
Qed.

Lemma sorted_desc_perm (ws : list (Wedge F)) : Permutation ws (sorted_desc ws).
Proof. apply (fold_insert_perm ws []). Qed.

(** A wedge no earlier one is strictly smaller than goes last. *)
Lemma insert_desc_last (w : Wedge F) l :
  forallb (fun y => negb (flt (w_frac y) (w_frac w))) l = true ->
  insert_desc w l = l ++ [w].
Proof.
  induction l as [|y l IH]; simpl; auto.
  intros H. apply andb_true_iff in H as [H1 H2].
  apply negb_true_iff in H1. rewrite H1. now rewrite IH.
Qed.

Lemma non_increasing_app (l1 : list (Wedge F)) w l2 :
  non_increasing (l1 ++ w :: l2) = true ->
  forallb (fun y => negb (flt (w_frac y) (w_frac w))) l1 = true.
Proof.
  induction l1 as [|y l1 IH]; simpl; auto.
  intros H. apply andb_true_iff in H as [H1 H2].
  rewrite forallb_app in H1. apply andb_true_iff in H1 as [_ H1].
  simpl in H1. apply andb_true_iff in H1 as [H1 _].
  rewrite H1. simpl. now apply IH.
Qed.

Lemma fold_insert_sorted (ws : list (Wedge F)) : forall acc,
  non_increasing (acc ++ ws) = true ->
  fold_left (fun acc w => insert_desc w acc) ws acc = acc ++ ws.
Proof.
  induction ws as [|w ws IH]; intros acc H; simpl.
  - now rewrite app_nil_r.
  - rewrite (insert_desc_last w acc) by (eapply non_increasing_app; eauto).
    rewrite IH; rewrite <- app_assoc; auto.
Qed.

Hypothesis flt_asym : forall a b : F, flt a b = true -> flt b a = false.
Hypothesis flt_trans :
  forall a b c : F, flt a b = true -> flt b c = true -> flt a c = true.

Lemma insert_desc_in (w z : Wedge F) l : In z (insert_desc w l) -> z = w \/ In z l.
Proof.
  intros H. apply (Permutation_in _ (Permutation_sym (insert_desc_perm w l))) in H.
  destruct H; auto.
Qed.

Lemma insert_desc_sorted (w : Wedge F) l :
  non_increasing l = true -> non_increasing (insert_desc w l) = true.
Proof.
  induction l as [|y l IH]; simpl; auto.
  intros H. apply andb_true_iff in H as [H1 H2].
  destruct (flt (w_frac y) (w_frac w)) eqn:E.
  - cbn [non_increasing forallb]. rewrite (flt_asym _ _ E), H1, H2. simpl.
    rewrite andb_true_r. apply forallb_forall. intros z Hz.
    apply negb_true_iff. destruct (flt (w_frac w) (w_frac z)) eqn:E'; auto.
    rewrite forallb_forall in H1. specialize (H1 z Hz).
    rewrite (flt_trans _ _ _ E E') in H1. discriminate H1.
  - cbn [non_increasing]. rewrite (IH H2), andb_true_r.
    apply forallb_forall. intros z Hz. apply insert_desc_in in Hz as [->|Hz].
    + now rewrite E.
    + rewrite forallb_forall in H1. now apply H1.
Qed.

Lemma fold_insert_non_increasing (ws : list (Wedge F)) : forall acc,
  non_increasing acc = true ->
  non_increasing (fold_left (fun acc w => insert_desc w acc) ws acc) = true.
Proof.
  induction ws as [|w ws IH]; intros acc H; simpl; auto.
  apply IH. now apply insert_desc_sorted.
Qed.

Lemma sorted_desc_non_increasing (ws : list (Wedge F)) :
  non_increasing (sorted_desc ws) = true.
Proof. now apply fold_insert_non_increasing. Qed.

End Ranking.

(** *** The order of binary64 and of the reals *)

Lemma SFltb_asym a b : SFltb a b = true -> SFltb b a = false.
Proof.
  unfold SFltb. rewrite (SFcompare_antisym a b).
  destruct (SFcompare a b) as [[]|]; simpl; congruence.
Qed.

Lemma finite_compare_trans (s : bool) m1 e1 m2 e2 m3 e3 :
  SFcompare (S754_finite s m1 e1) (S754_finite s m2 e2) = Some Lt ->
  SFcompare (S754_finite s m2 e2) (S754_finite s m3 e3) = Some Lt ->
  SFcompare (S754_finite s m1 e1) (S754_finite s m3 e3) = Some Lt.
Proof.
  simpl.
  change (PosDef.Pos.compare_cont Eq m1 m2) with (Pos.compare m1 m2).
  change (PosDef.Pos.compare_cont Eq m2 m3) with (Pos.compare m2 m3).
  change (PosDef.Pos.compare_cont Eq m1 m3) with (Pos.compare m1 m3).
  destruct s;
    destruct (Z.compare_spec e1 e2), (Z.compare_spec e2 e3),
      (Z.compare_spec e1 e3);
    destruct (Pos.compare_spec m1 m2), (Pos.compare_spec m2 m3),
      (Pos.compare_spec m1 m3);
    simpl; intros X1 X2; try discriminate; try reflexivity; exfalso; lia.
Qed.

Lemma SFltb_trans a b c : SFltb a b = true -> SFltb b c = true -> SFltb a c = true.
Proof.
  unfold SFltb.
  destruct (SFcompare a b) as [[]|] eqn:E1; try discriminate.
  destruct (SFcompare b c) as [[]|] eqn:E2; try discriminate.
  intros _ _.
  assert (H : SFcompare a c = Some Lt); [|now rewrite H].
  destruct a as [sa|sa| |sa ma ea], b as [sb|sb| |sb mb eb],
    c as [sc|sc| |sc mc ec];
    try discriminate E1; try discriminate E2; try reflexivity;
    try (destruct sa; try discriminate E1; try reflexivity;
         destruct sb; try discriminate E1; try discriminate E2; try reflexivity;
         destruct sc; try discriminate E1; try discriminate E2; reflexivity).
  destruct sa, sb; try discriminate E1; destruct sc; try discriminate E2;
    try reflexivity; eapply finite_compare_trans; eauto.
Qed.

Lemma binary64_flt_asym (a b : float) : flt a b = true -> flt b a = false.
Proof. simpl. rewrite !FloatAxioms.ltb_spec. apply SFltb_asym. Qed.

Lemma binary64_flt_trans (a b c : float) :
  flt a b = true -> flt b c = true -> flt a c = true.
Proof. simpl. rewrite !FloatAxioms.ltb_spec. apply SFltb_trans. Qed.

Lemma exact_flt_asym (a b : R) : flt a b = true -> flt b a = false.
Proof. simpl. rewrite Rltb_true, Rltb_false. lra. Qed.

Lemma exact_flt_trans (a b c : R) :
  flt a b = true -> flt b c = true -> flt a c = true.
Proof. simpl. rewrite !Rltb_true. lra. Qed.

(** X14: the ranking of the wedges for labels.  The ranked list is a
    permutation of the wedges (no wedge is lost or repeated), and in it no
    wedge comes after one of strictly smaller fraction: in exact
    arithmetic, and in binary64 when no fraction is NaN. *)
Theorem label_ranking :
  (forall (F : Type) (PF : PyFloat F) (ws : list (Wedge F)),
      Permutation ws (sorted_desc ws))
  /\ (forall ws : list (Wedge R), non_increasing (sorted_desc ws) = true)
  /\ (forall ws : list (Wedge float),
        fractions_compare ws -> non_increasing (sorted_desc ws) = true).
Proof.
  split; [|split].
  - intros F PF ws. apply sorted_desc_perm.
  - intros ws. apply sorted_desc_non_increasing;
      [apply exact_flt_asym|apply exact_flt_trans].
  - intros ws _. apply sorted_desc_non_increasing;
      [apply binary64_flt_asym|apply binary64_flt_trans].
Qed.

Lemma label_ranking_witness :
  non_increasing
    (sorted_desc (wedges_of (@defaults float _) [py "A"; py "B"; py "C"] [1; 3; 2]))
  = true.
Proof.
  apply (proj2 (proj2 label_ranking)).
  repeat constructor.
Defined.

(** X15: the ranking is stable.  When the wedges are already in
    non-increasing order of fraction (in particular when all fractions are
    equal) and no fraction is NaN, the ranked list is the list of wedges in
    input order: ties keep the order of the input. *)
Theorem label_ranking_stable {F : Type} {PF : PyFloat F} (ws : list (Wedge F)) :
  fractions_compare ws -> non_increasing ws = true -> sorted_desc ws = ws.
Proof.
  intros _ H. apply (fold_insert_sorted ws []). exact H.
Qed.

Lemma label_ranking_stable_witness :
  sorted_desc (wedges_of (@defaults float _) [py "A"; py "B"; py "C"] [2; 1; 1])
  = wedges_of (@defaults float _) [py "A"; py "B"; py "C"] [2; 1; 1].
Proof.
  apply label_ranking_stable.
  - repeat constructor.
  - vm_compute. reflexivity.
Defined.

(** *** Lookup: the first match *)

Lemma wedge_char_none {F} {PF : PyFloat F} (ws : list (Wedge F)) x :
  matches_any ws x = false -> wedge_char ws x = space.
Proof.
  induction ws as [|w ws IH]; simpl; auto.
  replace (match ws with [] => true | _ :: _ => false end) with (is_empty ws)
    by (destruct ws; reflexivity).
  intros H. apply orb_false_iff in H as [H1 H2]. rewrite H1. auto.
Qed.

Lemma wedge_char_first {F} {PF : PyFloat F} (ws : list (Wedge F)) x :
  forall k w,
  nth_error ws k = Some w ->
  wedge_matches w (Nat.eqb (S k) (length ws)) x = true ->
  (forall k' w', (k' < k)%nat -> nth_error ws k' = Some w' ->
                 wedge_matches w' false x = false) ->
  wedge_char ws x = w_ch w.
Proof.
  induction ws as [|v ws IH]; intros k w Hn Hm Hbefore; [destruct k; discriminate|].
  destruct k as [|k]; simpl in Hn.
  - injection Hn as ->. simpl.
    replace (match ws with [] => true | _ :: _ => false end)
      with (Nat.eqb 1 (length (w :: ws))) by (destruct ws; reflexivity).
    now rewrite Hm.
  - assert (Hne : ws <> []) by (intros E; rewrite E in Hn; destruct k; discriminate).
    simpl. destruct ws as [|u ws]; [congruence|].
    rewrite (Hbefore 0%nat v (Nat.lt_0_succ k) eq_refl).
    apply (IH k w Hn).
    + exact Hm.
    + intros k' w' Hlt Hn'. apply (Hbefore (S k') w'); [lia|exact Hn'].
Qed.

(** X9: the lookup returns the glyph of the first wedge, in input order,
    that matches the angle, where a wedge matches when [a0 <= ang < a1]
    and the last wedge also when [ang >= a0] or [ang < a1 % (2 pi)]; it
    returns a blank only when no wedge matches. *)
Theorem lookup_first_match {F : Type} {PF : PyFloat F}
    (ws : list (Wedge F)) (x : F) :
  (matches_any ws x = false -> wedge_char ws x = space)
  /\ (forall k w,
        nth_error ws k = Some w ->
        wedge_matches w (Nat.eqb (S k) (length ws)) x = true ->
        (forall k' w', (k' < k)%nat -> nth_error ws k' = Some w' ->
                       wedge_matches w' false x = false) ->
        wedge_char ws x = w_ch w)
  /\ (matches_any ws x = true ->
      exists k w, nth_error ws k = Some w
                  /\ wedge_matches w (Nat.eqb (S k) (length ws)) x = true
                  /\ wedge_char ws x = w_ch w).
Proof.
  split; [apply wedge_char_none|]. split; [apply wedge_char_first|].
  induction ws as [|v ws IH]; [discriminate|].
  cbn [matches_any wedge_char].
  replace (match ws with [] => true | _ :: _ => false end) with (is_empty ws)
    by (destruct ws; reflexivity).
  destruct (wedge_matches v (is_empty ws) x) eqn:E.
  - intros _. exists 0%nat, v. split; [reflexivity|]. split; [|reflexivity].
    replace (Nat.eqb 1 (length (v :: ws))) with (is_empty ws)
      by (destruct ws; reflexivity).
    exact E.
  - simpl. intros H. destruct (IH H) as (k & w & Hn & Hm & Hc).
    exists (S k), w. split; [exact Hn|]. split; [exact Hm|exact Hc].
Qed.

Lemma lookup_first_match_witness :
  let ws := wedges_of (@defaults float _) [py "A"; py "B"; py "C"] [30; 20; 50] in
  exists k w, nth_error ws k = Some w
              /\ wedge_matches w (Nat.eqb (S k) (length ws)) 4%float = true
              /\ wedge_char ws 4%float = w_ch w.
Proof.
  intros ws. apply (proj2 (proj2 (lookup_first_match ws 4%float))).
  vm_compute. reflexivity.
Defined.

(** *** The angles of a wedge *)

Lemma build_wedges_width {F} {PF : PyFloat F} glyphs total items :
  forall i cum,
  Forall (fun w =>
            w_a1 w = fadd (w_a0 w) (fmul two_pi (w_frac w))
            /\ w_frac w = (if feq total fzero then fzero
                           else fdiv (of_int (w_val w)) total))
    (build_wedges glyphs total i cum items).
Proof.
  induction items as [|[lab val] items IH]; intros i cum; simpl; constructor; auto.
Qed.

Lemma fraction_sum_build glyphs total items : forall i cum,
  total <> 0%R ->
  fraction_sum (build_wedges glyphs total i cum items)
  = (IZR (zsum (map snd items)) / total)%R.
Proof.
  induction items as [|[lab val] items IH]; intros i cum Ht.
  - unfold fraction_sum, zsum. simpl. field. exact Ht.
  - cbn [build_wedges map snd]. unfold fraction_sum in *. cbn [map fold_right w_frac].
    rewrite IH by exact Ht. rewrite zsum_cons, plus_IZR.
    assert (E : feq total fzero = false).
    { apply Reqb_false. unfold fzero. simpl. exact Ht. }
    rewrite E. simpl. field. exact Ht.
Qed.

(** X10: the width of a wedge.  In any float arithmetic each wedge ends
    at its start plus [2 pi] times its fraction; in exact arithmetic, for a
    validated input, the width of a wedge is [2 pi * value / total]: the
    angle is proportional to the value. *)
Theorem wedge_width :
  (forall (F : Type) (PF : PyFloat F) (o : Options F) labels counts,
      Forall (fun w => w_a1 w = fadd (w_a0 w) (fmul two_pi (w_frac w)))
        (wedges_of o labels counts))
  /\ (forall (o : Options R) labels counts,
        @validated R _ labels counts ->
        Forall (fun w => (w_a1 w - w_a0 w
                          = 2 * PI * IZR (w_val w) / IZR (zsum counts))%R)
          (wedges_of o labels counts)).
Proof.
  split.
  - intros F PF o labels counts. unfold wedges_of.
    eapply Forall_impl; [|apply build_wedges_width]. intros w [H _]. exact H.
  - intros o labels counts Hv.
    pose proof (exact_validated_total _ _ Hv) as Ht.
    unfold wedges_of. eapply Forall_impl; [|apply build_wedges_width].
    intros w [H1 H2]. rewrite H1, H2.
    assert (E : feq (@total_of R _ counts) fzero = false).
    { apply Reqb_false. unfold total_of, fzero. simpl. fold (zsum counts). lra. }
    rewrite E. unfold total_of, two_pi. simpl. fold (zsum counts). field. lra.
Qed.

(** X11: in exact arithmetic the fractions of the wedges of a validated
    input sum to 1. *)
Theorem fractions_sum_to_one (o : Options R) labels counts :
  @validated R _ labels counts ->
  fraction_sum (wedges_of o labels counts) = 1%R.
Proof.
  intros Hv. pose proof (exact_validated_total _ _ Hv) as Ht.
  destruct Hv as (_ & _ & Hlen & _).
  unfold wedges_of. rewrite fraction_sum_build.
  - rewrite (map_snd_combine _ _ Hlen). unfold total_of. simpl.
    fold (zsum counts). field. lra.
  - unfold total_of. simpl. fold (zsum counts). lra.
Qed.

Lemma exact_scenario_validated : @validated R _ [py "A"; py "B"] [1; 3].
Proof.
  split; [discriminate|split; [discriminate|split; [reflexivity|]]].
  apply Rleb_false. unfold total_of, fzero. simpl. lra.
Qed.

Lemma wedge_width_witness :
  Forall (fun w => (w_a1 w - w_a0 w = 2 * PI * IZR (w_val w) / IZR 4)%R)
    (wedges_of (@defaults R _) [py "A"; py "B"] [1; 3]).
Proof.
  exact (proj2 wedge_width defaults [py "A"; py "B"] [1; 3]
           exact_scenario_validated).
Defined.

Lemma fractions_sum_to_one_witness :
  fraction_sum (wedges_of (@defaults R _) [py "A"; py "B"] [1; 3]) = 1%R.
Proof.
  exact (fractions_sum_to_one defaults [py "A"; py "B"] [1; 3]
           exact_scenario_validated).
Defined.

(** *** Wedges of count zero *)

Lemma SFcompare_zero_sign s s' x :
  SFcompare x (S754_zero s) = SFcompare x (S754_zero s').
Proof. destruct x as [?|?| |? ? ?]; reflexivity. Qed.

(** No float is both [>= a] and [< a]. *)
Lemma SFleb_ltb_false a x : SFleb a x = true -> SFltb x a = false.
Proof.
  unfold SFleb, SFltb. rewrite (SFcompare_antisym x a).
  destruct (SFcompare x a) as [[]|]; simpl; congruence.
Qed.

(** Adding [+0.0] to a float leaves no room between the two. *)
Lemma SFadd_zero_empty a x :
  SFleb a x && SFltb x (SFadd prec emax a (S754_zero false)) = false.
Proof.
  destruct (SFleb a x) eqn:E; [|reflexivity]. simpl.
  destruct a as [s|s| |s m e]; simpl SFadd.
  - assert (H : SFltb x (S754_zero s) = false) by (now apply SFleb_ltb_false).
    unfold SFltb in *. rewrite (SFcompare_zero_sign s false) in H.
    destruct s; exact H.
  - now apply SFleb_ltb_false.
  - destruct x; reflexivity.
  - now apply SFleb_ltb_false.
Qed.

(** [float(n)] of a positive [n] is a positive finite float or [+inf]. *)
Lemma binary64_of_pos (p : positive) :
  (exists m e, Prim2SF (Binary64.of_Z (Zpos p)) = S754_finite false m e)
  \/ Prim2SF (Binary64.of_Z (Zpos p)) = S754_infinity false.
Proof.
  unfold Binary64.of_Z. simpl binary_normalize.
  destruct (round_int false p) as [(mz & ez & -> & Hd & He)|[-> _]].
  - left. exists mz, ez. apply FloatAxioms.Prim2SF_SF2Prim. now apply finite53_valid.
  - right. reflexivity.
Qed.

Lemma binary64_zero_fraction (total : float) :
  ((exists m e, Prim2SF total = S754_finite false m e)
   \/ Prim2SF total = S754_infinity false) ->
  Prim2SF (PrimFloat.mul two_pi (PrimFloat.div (Binary64.of_Z 0) total))
  = S754_zero false.
Proof.
  intros Ht. rewrite FloatAxioms.mul_spec, FloatAxioms.div_spec, binary64_two_pi.
  change (Prim2SF (Binary64.of_Z 0)) with (S754_zero false).
  destruct Ht as [(m & e & ->)| ->]; reflexivity.
Qed.

Lemma binary64_validated_total labels counts :
  @validated float _ labels counts ->
  0 < zsum counts
  /\ ((exists m e, Prim2SF (@total_of float _ counts) = S754_finite false m e)
      \/ Prim2SF (@total_of float _ counts) = S754_infinity false).
Proof.
  intros (_ & _ & _ & H). unfold total_of in *.
  change (fold_left Z.add counts 0) with (zsum counts) in *.
  rewrite binary64_sign_law in H. apply Z.leb_gt in H. split; [exact H|].
  destruct (zsum counts) as [|p|p]; try lia. apply binary64_of_pos.
Qed.

(** X12: a wedge whose count is 0 covers no angle.  Its end is its start
    plus [2 pi * (0 / total)], and no angle is [>= a0] and [< a1]: unless
    it is the last one, such a wedge is never the answer of the lookup,
    in binary64 as in exact arithmetic. *)
Theorem zero_count_wedge_is_empty :
  (forall (o : Options float) labels counts,
      @validated float _ labels counts ->
      Forall (fun w => w_val w = 0 -> forall x, wedge_matches w false x = false)
        (wedges_of o labels counts))
  /\ (forall (o : Options R) labels counts,
        @validated R _ labels counts ->
        Forall (fun w => w_val w = 0 -> forall x, wedge_matches w false x = false)
          (wedges_of o labels counts)).
Proof.
  split.
  - intros o labels counts Hv.
    destruct (binary64_validated_total _ _ Hv) as [_ Ht].
    pose proof (validated_total_nonzero _ _ Hv) as Hz.
    unfold wedges_of. eapply Forall_impl; [|apply build_wedges_width].
    intros w [H1 H2] H0 x. rewrite Hz, H0 in H2.
    unfold wedge_matches. rewrite orb_false_r, H1, H2.
    change (PrimFloat.leb (w_a0 w) x
            && PrimFloat.ltb x
                 (PrimFloat.add (w_a0 w)
                    (PrimFloat.mul two_pi
                       (PrimFloat.div (Binary64.of_Z 0) (total_of counts))))
            = false).
    rewrite FloatAxioms.leb_spec, FloatAxioms.ltb_spec, FloatAxioms.add_spec.
    rewrite (binary64_zero_fraction _ Ht). apply SFadd_zero_empty.
  - intros o labels counts Hv.
    pose proof (exact_validated_total _ _ Hv) as Ht.
    pose proof (validated_total_nonzero _ _ Hv) as Hz.
    unfold wedges_of. eapply Forall_impl; [|apply build_wedges_width].
    intros w [H1 H2] H0 x. rewrite Hz, H0 in H2.
    unfold wedge_matches. rewrite orb_false_r, H1, H2. simpl.
    destruct (Exact.Rleb (w_a0 w) x) eqn:E; [|reflexivity]. simpl.
    apply Rleb_true in E. apply Rltb_false.
    unfold total_of. simpl. fold (zsum counts).
    replace (0 / IZR (zsum counts))%R with 0%R by (field; lra). lra.
Qed.

Lemma zero_count_wedge_is_empty_witness :
  Forall (fun w => w_val w = 0 -> forall x, wedge_matches w false x = false)
    (wedges_of (@defaults float _) [py "A"; py "B"; py "C"] [3; 0; 1]).
Proof.
  apply (proj1 zero_count_wedge_is_empty).
  split; [discriminate|split; [discriminate|split; [reflexivity|vm_compute; reflexivity]]].
Defined.

(** *** Wedge angles in binary64 *)

Lemma chained_starts {F} (ws : list (Wedge F)) : forall start w,
  chained start ws -> In w ws ->
  w_a0 w = start \/ exists w', In w' ws /\ w_a0 w = w_a1 w'.
Proof.
  induction ws as [|v ws IH]; intros start w Hc Hin; [contradiction|].
  destruct Hc as [Ha Hc]. destruct Hin as [<-|Hin]; [now left|].
  right. destruct (IH _ w Hc Hin) as [E|(w' & Hw' & E)].
  - exists v. split; [now left|exact E].
  - exists w'. split; [now right|exact E].
Qed.

Lemma nonneg_number_leb (x : float) :
  nonneg_number (Prim2SF x) = true -> @fle float _ fzero x = true.
Proof.
  intros H. unfold fzero. simpl. rewrite FloatAxioms.leb_spec.
  change (Prim2SF (Binary64.of_Z 0)) with (S754_zero false).
  destruct (Prim2SF x) as [s|[]| |[] m e]; try discriminate H; reflexivity.
Qed.

(** X13: in binary64, when no count is negative and the counts sum to less
    than [2^1023], no wedge angle is NaN or below zero: every [angleStart]
    and every [angleEnd] is [>= 0]. *)
Theorem binary64_wedge_angles (o : Options float) labels counts :
  @validated float _ labels counts ->
  Forall (fun c => 0 <= c) counts -> zsum counts < 2 ^ 1023 ->
  Forall (fun w => fle fzero (w_a0 w) = true /\ fle fzero (w_a1 w) = true)
    (wedges_of o labels counts).
Proof.
  intros Hv Hnn Hsum.
  destruct (binary64_validated_total _ _ Hv) as [Hpos Ht].
  assert (Hfin : exists mt et,
             Prim2SF (@total_of float _ counts) = S754_finite false mt et).
  { unfold total_of in *. change (fold_left Z.add counts 0) with (zsum counts) in *.
    destruct (binary64_of_int_cases (zsum counts) ltac:(lia))
      as [E|(m & e & E & _)]; [|eauto].
    destruct Ht as [(m & e & Ht)|Ht]; simpl of_int in Ht; congruence. }
  destruct Hfin as (mt & et & Hfin).
  assert (Hends : forall w, In w (wedges_of o labels counts) ->
                  nonneg_number (Prim2SF (w_a1 w)) = true).
  { intros w Hw.
    apply (binary64_ends (glyphs_of (chars o)) (total_of counts) mt et
             (combine labels counts) 0%nat fzero w Hfin); auto.
    intros lab val Hin. apply in_combine_r in Hin.
    pose proof (count_le_zsum counts Hnn val Hin). lia. }
  apply Forall_forall. intros w Hw. split.
  - destruct (chained_starts _ fzero w
                (build_wedges_chained _ _ _ _ _) Hw) as [->|(w' & Hw' & ->)].
    + reflexivity.
    + apply nonneg_number_leb. now apply Hends.
  - apply nonneg_number_leb. now apply Hends.
Qed.

Lemma binary64_wedge_angles_witness :
  Forall (fun w => fle fzero (w_a0 w) = true /\ fle fzero (w_a1 w) = true)
    (wedges_of (@defaults float _) [py "A"; py "B"; py "C"] [3; 0; 1]).
Proof.
  apply (binary64_wedge_angles defaults [py "A"; py "B"; py "C"] [3; 0; 1]).
  - split; [discriminate|split; [discriminate|split; [reflexivity|vm_compute; reflexivity]]].
  - repeat constructor; lia.
  - reflexivity.
Defined.

Lemma SFltb_leb a b : SFltb a b = true -> SFleb a b = true.
Proof. unfold SFltb, SFleb. destruct (SFcompare a b) as [[]|]; auto. Qed.

Lemma binary64_flt_fle (a b : float) : flt a b = true -> fle a b = true.
Proof. simpl. rewrite FloatAxioms.ltb_spec, FloatAxioms.leb_spec. apply SFltb_leb. Qed.

Lemma binary64_fle_not_flt (a b : float) : fle a b = true -> flt b a = false.
Proof.
  simpl. rewrite FloatAxioms.ltb_spec, FloatAxioms.leb_spec. apply SFleb_ltb_false.
Qed.

(** X16: the hole is clamped.  [inner] is [radius] times a factor that is
    [hole] when [0 < hole < 0.99] and otherwise 0.0 or 0.99; the factor
    always lies in [0, 0.99], whatever [hole] is (a NaN gives 0.99): in
    binary64 as in exact arithmetic. *)
Theorem hole_is_clamped :
  (forall o : Options float,
      inner o = fmul (hole_factor o) (of_int (radius o))
      /\ fle fzero (hole_factor o) = true
      /\ fle (hole_factor o) (lit 99 100) = true
      /\ (flt fzero (hole o) = true -> flt (hole o) (lit 99 100) = true ->
          hole_factor o = hole o)
      /\ (fle (hole o) fzero = true -> hole_factor o = fzero)
      /\ (flt (hole o) (lit 99 100) = false -> hole_factor o = lit 99 100))
  /\ (forall o : Options R,
        inner o = fmul (hole_factor o) (of_int (radius o))
        /\ fle fzero (hole_factor o) = true
        /\ fle (hole_factor o) (lit 99 100) = true
        /\ (flt fzero (hole o) = true -> flt (hole o) (lit 99 100) = true ->
            hole_factor o = hole o)
        /\ (fle (hole o) fzero = true -> hole_factor o = fzero)
        /\ (flt (hole o) (lit 99 100) = false -> hole_factor o = lit 99 100)).
Proof.
  split; intros o; (split; [reflexivity|]); unfold hole_factor, py_max, py_min.
  - assert (C1 : @flt float _ fzero (lit 99 100) = true) by reflexivity.
    assert (C2 : @fle float _ fzero fzero = true) by reflexivity.
    assert (C3 : @fle float _ fzero (lit 99 100) = true) by reflexivity.
    assert (C4 : @fle float _ (lit 99 100) (lit 99 100) = true) by reflexivity.
    assert (C5 : fle (hole o) fzero = true -> flt (hole o) (lit 99 100) = true).
    { simpl. rewrite FloatAxioms.leb_spec, FloatAxioms.ltb_spec.
      change (Prim2SF (Binary64.of_Z 0)) with (S754_zero false).
      change (Prim2SF (PrimFloat.div (Binary64.of_Z 99) (Binary64.of_Z 100)))
        with (S754_finite false 8917127262193582 (-53)).
      destruct (Prim2SF (hole o)) as [s|[]| |[] m e]; intros H;
        try discriminate H; reflexivity. }
    destruct (flt (hole o) (lit 99 100)) eqn:E1;
      [destruct (flt fzero (hole o)) eqn:E2|rewrite C1];
      refine (conj _ (conj _ (conj _ (conj _ _))));
      auto using binary64_flt_fle; try discriminate;
      try (intros H; apply binary64_fle_not_flt in H; congruence);
      try (intros H; apply C5 in H; discriminate H).
  - unfold fzero, lit. simpl.
    assert (C1 : Exact.Rltb 0 (99 / 100) = true) by (apply Rltb_true; lra).
    destruct (Exact.Rltb (hole o) (99 / 100)) eqn:E1;
      [apply Rltb_true in E1; destruct (Exact.Rltb 0 (hole o)) eqn:E2;
       [apply Rltb_true in E2|apply Rltb_false in E2]
      |apply Rltb_false in E1; rewrite C1];
      rewrite !Rleb_true;
      refine (conj _ (conj _ (conj _ (conj _ _))));
      auto; try lra; try discriminate;
      try (intros H; apply Rleb_true in H; lra).
Qed.

Lemma hole_is_clamped_witness :
  let o : Options float :=
    mkOptions 4 (lit 1 2) true true 4 (lit 24 10) (Some default_border)
              (lit 45 100) [] true Percent 4 [] in
  hole_factor o = lit 1 2.
Proof.
  intros o.
  apply (proj1 (proj2 (proj2 (proj2 (proj1 hole_is_clamped o))))); reflexivity.
Defined.

(** A square root is NaN or not below zero. *)
Lemma SFsqrt_nonneg x :
  SFsqrt prec emax x = S754_nan \/ nonneg_number (SFsqrt prec emax x) = true.
Proof.
  destruct x as [s|[]| |[] m e]; simpl; auto.
  right. unfold SFsqrt_core_binary.
  set (m' := match _ with Z0 => Zpos m | Zpos _ => _ | Zneg _ => 0 end).
  pose proof (Z.sqrtrem_spec m') as Hs. pose proof (Z.sqrt_nonneg m') as Hq.
  rewrite <- Z.sqrtrem_sqrt in Hq.
  destruct (Z.sqrtrem m') as [q r]. cbn [fst] in Hq.
  now apply round_aux_nonneg.
Qed.

(** [float(n)] is never NaN. *)
Lemma binary64_of_int_not_nan z : Prim2SF (Binary64.of_Z z) <> S754_nan.
Proof.
  unfold Binary64.of_Z. destruct z as [|p|p]; simpl binary_normalize.
  - discriminate.
  - destruct (round_int false p) as [(mz & ez & -> & Hd & He)|[-> _]].
    + rewrite FloatAxioms.Prim2SF_SF2Prim by (now apply finite53_valid).
      discriminate.
    + discriminate.
  - destruct (round_int true p) as [(mz & ez & -> & Hd & He)|[-> _]].
    + rewrite FloatAxioms.Prim2SF_SF2Prim by (now apply finite53_valid).
      discriminate.
    + discriminate.
Qed.

(** [0.0 * radius] is a zero or NaN. *)
Lemma binary64_zero_times (z : Z) :
  (exists s, Prim2SF (PrimFloat.mul (Binary64.of_Z 0) (Binary64.of_Z z)) = S754_zero s)
  \/ Prim2SF (PrimFloat.mul (Binary64.of_Z 0) (Binary64.of_Z z)) = S754_nan.
Proof.
  rewrite FloatAxioms.mul_spec.
  change (Prim2SF (Binary64.of_Z 0)) with (S754_zero false).
  destruct (Prim2SF (Binary64.of_Z z)) as [s|s| |s m e]; simpl; eauto.
Qed.

Lemma binary64_no_hole_tests (z : Z) (r : float) :
  let inner0 := PrimFloat.mul (Binary64.of_Z 0) (Binary64.of_Z z) in
  (Prim2SF r = S754_nan \/ nonneg_number (Prim2SF r) = true) ->
  PrimFloat.ltb r (PrimFloat.sub inner0 (@lit float _ 1 1000000)) = false
  /\ PrimFloat.ltb (Binary64.of_Z 0) inner0 = false.
Proof.
  intros inner0 Hr.
  rewrite !FloatAxioms.ltb_spec, FloatAxioms.sub_spec.
  change (Prim2SF (@lit float _ 1 1000000))
    with (S754_finite false 4722366482869645 (-72)).
  change (Prim2SF (Binary64.of_Z 0)) with (S754_zero false).
  destruct (binary64_zero_times z) as [[s E]|E]; fold inner0 in E; rewrite E.
  - split; [|reflexivity]. simpl.
    destruct Hr as [->|Hr]; [reflexivity|].
    destruct (Prim2SF r) as [s'|[]| |[] m e]; try discriminate Hr; reflexivity.
  - split; [|reflexivity]. simpl. destruct (Prim2SF r); reflexivity.
Qed.

(** X17: a chart without a hole.  With [hole <= 0] (the default is 0.0)
    the inner radius is [0.0 * radius]: no sample is discarded for being
    inside a hole, so a sample is discarded exactly when
    [r > radius + 1e-6], and it counts as near the border exactly when a
    border glyph is set and [abs(r - radius) < border_softness]; in
    binary64 as in exact arithmetic. *)
Theorem no_hole_tests :
  (forall (o : Options float) (i j : Z) (dy dx : float),
      fle (hole o) fzero = true ->
      let r := sample_r o i j dy dx in
      discarded o r = discarded_outer o r
      /\ near_border o r = near_outer_border o r)
  /\ (forall (o : Options R) (i j : Z) (dy dx : R),
        fle (hole o) fzero = true ->
        let r := sample_r o i j dy dx in
        discarded o r = discarded_outer o r
        /\ near_border o r = near_outer_border o r).
Proof.
  split.
  - intros o i j dy dx Hh r.
    assert (Hin : inner o = PrimFloat.mul (Binary64.of_Z 0) (Binary64.of_Z (radius o))).
    { unfold inner. fold (hole_factor o).
      assert (E : hole_factor o = fzero).
      { unfold hole_factor, py_max, py_min.
        assert (C5 : flt (hole o) (lit 99 100) = true).
        { revert Hh. simpl. rewrite FloatAxioms.leb_spec, FloatAxioms.ltb_spec.
          change (Prim2SF (Binary64.of_Z 0)) with (S754_zero false).
          change (Prim2SF (PrimFloat.div (Binary64.of_Z 99) (Binary64.of_Z 100)))
            with (S754_finite false 8917127262193582 (-53)).
          destruct (Prim2SF (hole o)) as [s|[]| |[] m e]; intros H;
            try discriminate H; reflexivity. }
        rewrite C5. now rewrite (binary64_fle_not_flt _ _ Hh). }
      rewrite E. reflexivity. }
    assert (Hr : Prim2SF r = S754_nan \/ nonneg_number (Prim2SF r) = true).
    { unfold r, sample_r. simpl hypot. unfold Binary64.math_hypot.
      rewrite FloatAxioms.sqrt_spec. apply SFsqrt_nonneg. }
    destruct (binary64_no_hole_tests (radius o) r Hr) as [T1 T2].
    unfold discarded, discarded_outer, near_border, near_outer_border.
    rewrite Hin.
    change (flt r (fsub (PrimFloat.mul (Binary64.of_Z 0) (Binary64.of_Z (radius o)))
                     (lit 1 1000000)))
      with (PrimFloat.ltb r
              (PrimFloat.sub (PrimFloat.mul (Binary64.of_Z 0) (Binary64.of_Z (radius o)))
                 (@lit float _ 1 1000000))).
    change (flt fzero (PrimFloat.mul (Binary64.of_Z 0) (Binary64.of_Z (radius o))))
      with (PrimFloat.ltb (Binary64.of_Z 0)
              (PrimFloat.mul (Binary64.of_Z 0) (Binary64.of_Z (radius o)))).
    rewrite T1, T2. split; [apply orb_false_r|].
    destruct (border o); [|reflexivity]. simpl andb. apply orb_false_r.
  - intros o i j dy dx Hh r.
    assert (Hin : inner o = 0%R).
    { unfold inner, py_max, py_min, fzero, lit. simpl in *.
      apply Rleb_true in Hh.
      assert (E1 : Exact.Rltb (hole o) (99 / 100) = true) by (apply Rltb_true; lra).
      assert (E2 : Exact.Rltb 0 (hole o) = false) by (apply Rltb_false; lra).
      rewrite E1, E2. lra. }
    assert (Hr : (0 <= r)%R).
    { unfold r, sample_r. simpl. unfold Exact.Rhypot. apply sqrt_pos. }
    unfold discarded, discarded_outer, near_border, near_outer_border.
    rewrite Hin. unfold fzero, lit. simpl.
    assert (T1 : Exact.Rltb r (0 - 1 / 1000000) = false) by (apply Rltb_false; lra).
    assert (T2 : Exact.Rltb 0 0 = false) by (apply Rltb_false; lra).
    rewrite T1, T2. split; [apply orb_false_r|].
    destruct (border o); [|reflexivity]. simpl andb. apply orb_false_r.
Qed.

Lemma no_hole_tests_witness :
  discarded scenario_options (sample_r scenario_options 4 4 (lit 1 2) (lit 1 2))
  = discarded_outer scenario_options
      (sample_r scenario_options 4 4 (lit 1 2) (lit 1 2)).
Proof.
  exact (proj1 (proj1 no_hole_tests scenario_options 4 4 (lit 1 2) (lit 1 2)
                  eq_refl)).
Defined.

Section ExactSampling.

Local Open Scope R_scope.

Lemma Rmod_shift a m k :
  0 < m -> Exact.Rmod (a + IZR k * m) m = Exact.Rmod a m.
Proof.
  intros Hm. pose proof (Rmod_range a m Hm) as Hr.
  unfold Exact.Rmod at 2. unfold Exact.Rmod in Hr.
  rewrite (Rmod_unique (a + IZR k * m) m (k + Int_part (a / m))%Z Hm);
    rewrite plus_IZR; lra.
Qed.

Lemma Rmod_opp_mod a m :
  0 < m -> Exact.Rmod (- Exact.Rmod a m) m = Exact.Rmod (- a) m.
Proof.
  intros Hm. unfold Exact.Rmod at 2.
  replace (- (a - IZR (Int_part (a / m)) * m))
    with (- a + IZR (Int_part (a / m)) * m) by lra.
  now apply Rmod_shift.
Qed.

Lemma Rmod_sub_mod a b m :
  0 < m -> Exact.Rmod (Exact.Rmod a m - b) m = Exact.Rmod (a - b) m.
Proof.
  intros Hm. unfold Exact.Rmod at 2.
  replace (a - IZR (Int_part (a / m)) * m - b)
    with (a - b + IZR (- Int_part (a / m)) * m) by (rewrite opp_IZR; lra).
  now apply Rmod_shift.
Qed.

(** The first step of [orient] on a result of [atan2]. *)
Lemma orient_normalise a :
  - PI <= a <= PI -> (if Exact.Rltb a 0 then a + 2 * PI else a) = Exact.Rmod a turn.
Proof.
  intros Ha. pose proof PI_RGT_0. unfold turn.
  destruct (Exact.Rltb a 0) eqn:E.
  - apply Rltb_true in E. rewrite Rmod_neg; lra.
  - apply Rltb_false in E. rewrite Rmod_small; lra.
Qed.

End ExactSampling.

Lemma orient_display (o : Options R) (a : R) :
  (- PI <= a <= PI)%R -> orient o a = display_angle o a.
Proof.
  intros Ha. unfold orient, display_angle, fzero, two_pi. simpl.
  rewrite (orient_normalise a Ha). fold turn.
  pose proof turn_pos as Ht.
  destruct (start_at_12 o), (clockwise o).
  - rewrite Rmod_sub_mod, Rmod_opp_mod by exact Ht. f_equal. lra.
  - now rewrite Rmod_sub_mod.
  - rewrite Rmod_opp_mod by exact Ht. f_equal. lra.
  - f_equal. lra.
Qed.

Lemma orient_in_turn (o : Options R) (a : R) :
  (- PI <= a <= PI)%R -> (0 <= orient o a < 2 * PI)%R.
Proof.
  intros Ha. rewrite (orient_display o a Ha). unfold display_angle.
  apply (Rmod_range _ turn turn_pos).
Qed.

(** X19: [orient] in exact arithmetic, on the raw angles [atan2] returns.
    For [-pi <= a <= pi] the display angle is the raw angle measured from
    12 o'clock when [start_at_12] (from 3 o'clock otherwise), clockwise
    when [clockwise] (counter-clockwise otherwise), taken modulo [2 pi]; it
    lies in [0, 2 pi). *)
Theorem orient_of_raw_angle (o : Options R) (a : R) :
  (- PI <= a <= PI)%R ->
  orient o a = display_angle o a /\ (0 <= orient o a < 2 * PI)%R.
Proof.
  intros Ha. split; [now apply orient_display|now apply orient_in_turn].
Qed.

Lemma orient_of_raw_angle_witness :
  orient (@defaults R _) (PI / 2)%R = display_angle defaults (PI / 2)%R.
Proof.
  refine (proj1 (orient_of_raw_angle defaults (PI / 2)%R _)).
  pose proof PI_RGT_0. lra.
Defined.

Section ExactSampling2.

Local Open Scope R_scope.

Lemma Ratan2_range y x : - PI < Exact.Ratan2 y x <= PI.
Proof.
  pose proof PI_RGT_0 as Hpi. unfold Exact.Ratan2.
  pose proof (atan_bound (y / x)) as Hb.
  destruct (Rlt_dec 0 x) as [Hx|Hx]; [lra|].
  destruct (Rlt_dec x 0) as [Hx'|Hx'].
  - destruct (Rle_dec 0 y) as [Hy|Hy].
    + assert (H : atan (y / x) <= 0).
      { rewrite <- atan_0. destruct (Req_dec y 0) as [->|Hy0].
        - unfold Rdiv. rewrite Rmult_0_l. lra.
        - left. apply atan_increasing. apply Rmult_pos_neg; [lra|].
          now apply Rinv_lt_0_compat. }
      lra.
    + assert (H : 0 < atan (y / x)).
      { rewrite <- atan_0. apply atan_increasing.
        apply Rmult_neg_neg; [lra|]. now apply Rinv_lt_0_compat. }
      lra.
  - destruct (Rlt_dec 0 y); [lra|]. destruct (Rlt_dec y 0); lra.
Qed.

End ExactSampling2.



Lemma range_nth lo hi k d :
  (k < Z.to_nat (hi - lo))%nat -> nth k (range lo hi) d = lo + Z.of_nat k.
Proof.
  intros H. unfold range.
  rewrite (nth_indep _ d (lo + Z.of_nat 0)) by (now rewrite length_map, length_seq).
  rewrite (map_nth (fun k => lo + Z.of_nat k)), seq_nth by exact H.
  reflexivity.
Qed.

Lemma exact_offsets (o : Options R) :
  0 <= samples o ->
  offsets o = map (exact_offset (samples o)) (range 0 (samples o)).
Proof.
  intros Hs. unfold offsets. apply map_ext. intros k.
  unfold exact_offset, step, lit. simpl. rewrite !plus_IZR.
  apply IZR_le in Hs. field. lra.
Qed.

(** X18: the sampling offsets in exact arithmetic.  For [samples = n >= 0]
    there are [n] offsets, the [k]-th being [(k + 1) / (n + 1) - 1/2]: they
    lie strictly between -1/2 and 1/2, increase with [k], and are
    symmetric about 0 (the [k]-th and the [(n - 1 - k)]-th add up to 0). *)
Theorem sampling_offsets (o : Options R) :
  0 <= samples o ->
  offsets o = map (exact_offset (samples o)) (range 0 (samples o))
  /\ (forall k, 0 <= k < samples o ->
        (- (1 / 2) < exact_offset (samples o) k < 1 / 2)%R
        /\ (k + 1 < samples o ->
            (exact_offset (samples o) k < exact_offset (samples o) (k + 1))%R)
        /\ (exact_offset (samples o) k
            + exact_offset (samples o) (samples o - 1 - k) = 0)%R).
Proof.
  intros Hs. split; [now apply exact_offsets|].
  intros k [Hk0 Hk]. unfold exact_offset.
  apply IZR_le in Hs, Hk0. apply IZR_lt in Hk.
  set (n := IZR (samples o)) in *. set (x := IZR k) in *.
  assert (Hn : (0 < n + 1)%R) by lra.
  split; [|split].
  - split.
    + assert ((0 < (x + 1) / (n + 1))%R) by (apply Rdiv_lt_0_compat; lra). lra.
    + assert (((x + 1) / (n + 1) < 1)%R).
      { apply (Rmult_lt_reg_r (n + 1)); [exact Hn|].
        unfold Rdiv. rewrite Rmult_assoc, Rinv_l by lra. lra. }
      lra.
  - intros _. rewrite plus_IZR. fold x.
    assert (((x + 1) / (n + 1) < (x + 1 + 1) / (n + 1))%R).
    { unfold Rdiv. apply Rmult_lt_compat_r; [now apply Rinv_0_lt_compat|lra]. }
    lra.
  - rewrite !minus_IZR. fold n. fold x. field. lra.
Qed.

Lemma sampling_offsets_witness :
  offsets (@defaults R _) = map (exact_offset 4) (range 0 4).
Proof.
  refine (proj1 (sampling_offsets defaults _)). unfold defaults. cbn [samples]. lia.
Defined.

(** *** Every sample votes for a wedge (exact arithmetic) *)

(** X20: in exact arithmetic, for a validated input, the display angle of
    every sample lies in [0, 2 pi) and its lookup returns the glyph of a
    wedge: no sample votes for the blank fallback. *)
Theorem exact_samples_vote_for_wedges (o : Options R) labels counts i j dy dx :
  @validated R _ labels counts ->
  let ws := wedges_of o labels counts in
  let ang := orient o (atan2 (sample_y o j dy) (sample_x i dx)) in
  (0 <= ang < 2 * PI)%R
  /\ matches_any ws ang = true
  /\ In (sample_glyph o ws i j dy dx) (map w_ch ws).
Proof.
  intros Hv ws ang.
  assert (Hang : (0 <= ang < 2 * PI)%R).
  { unfold ang. apply orient_in_turn.
    pose proof (Ratan2_range (sample_y o j dy) (sample_x i dx)) as Hr.
    change (- PI <= Exact.Ratan2 (sample_y o j dy) (sample_x i dx) <= PI)%R.
    lra. }
  assert (Hm : matches_any ws ang = true).
  { apply (lookup_matches _ fzero).
    - now apply validated_nonempty.
    - apply build_wedges_chained.
    - unfold fzero. simpl. apply Rleb_true. lra.
    - apply exact_comparable. }
  split; [exact Hang|]. split; [exact Hm|].
  unfold sample_glyph. fold ang. now apply wedge_char_in.
Qed.

Lemma exact_samples_vote_for_wedges_witness :
  let o := @defaults R _ in
  In (sample_glyph o (wedges_of o [py "A"; py "B"] [1; 3]) 0 0 0%R 0%R)
     (map w_ch (wedges_of o [py "A"; py "B"] [1; 3])).
Proof.
  intros o.
  exact (proj2 (proj2 (exact_samples_vote_for_wedges o [py "A"; py "B"] [1; 3]
                         0 0 0%R 0%R exact_scenario_validated))).
Defined.
